(** * Selene: interval-weighted sampling and variant-effect sequence
      reconstruction

    A shallow embedding of
      - [selene/samplers/intervals_sampler.py]
        ([_get_indices_and_probabilities], the proportional partition,
        [_update_randcache], the index read of [sample], [__init__]) and
      - [selene_sdk/predict/_variant_effect_prediction.py]
        ([read_vcf_file], [_get_ref_idxs], [_process_alt],
        [_handle_standard_ref]).

    Conventions of the embedding.
      - Python [int] is [Z]; [//] is [Z.div] (floor division).
      - Python [str] is [string]; a file is the list of its lines as
        [readlines] returns them.
      - A Python exception is a value [Raise e] of the [result] type; the
        bind of that type propagates it, as an uncaught exception does.
      - The table of interval lengths is an int64 array, as [np.array]
        makes it of lengths that fit 64 bits: [np.sum] over a selection of
        it wraps around ([int64]).
      - A finite binary64 value is the rational it stands for.  The two
        floating-point operations of the sampler, [x / float(total)] and
        [n * fraction], are operations of an [Arithmetic] whose results lie
        within a relative error of [2 ** -50] of the exact ones; a division
        by zero gives the IEEE infinities and NaN ([weight]).  The exponent
        range is not bounded.
      - [np.random.choice] is modelled by its argument checks and its
        inverse-CDF search in exact arithmetic.
      - Random draws are read from an explicit stream of uniform samples
        that is threaded through the sampler state. *)

From Stdlib Require Import ZArith QArith Qround Qabs List Ascii String Bool Lia
  Lqa Permutation.
Import ListNotations.

Local Open Scope Z_scope.

(* ================================================================== *)
(** * Python primitives *)
(* ================================================================== *)

Module Py.

(** The exceptions the modelled code can raise. *)
Inductive exn : Type :=
| IndexError
| ValueError
| KeyError
| AttributeError
| TypeError
| RecursionError.

Inductive result (A : Type) : Type :=
| Ok (a : A)
| Raise (e : exn).

Arguments Ok {A} a.
Arguments Raise {A} e.

Definition bind {A B : Type} (m : result A) (k : A -> result B) : result B :=
  match m with
  | Ok a => k a
  | Raise e => Raise e
  end.

(** [len(l)] as a Python integer. *)
Definition len {A : Type} (l : list A) : Z := Z.of_nat (List.length l).

(** Clamping of a slice bound against a sequence of length [n]: a negative
    bound counts from the end, and both ends saturate. *)
Definition norm_bound (n i : Z) : Z :=
  if i <? 0 then Z.max (i + n) 0 else Z.min i n.

(** [l[lo:hi]]; [None] is an omitted bound. *)
Definition slice {A : Type} (lo hi : option Z) (l : list A) : list A :=
  let n := len l in
  let lo' := match lo with Some i => norm_bound n i | None => 0 end in
  let hi' := match hi with Some i => norm_bound n i | None => n end in
  firstn (Z.to_nat (hi' - lo')) (skipn (Z.to_nat lo') l).

(** [l[i]]: a negative index counts from the end; out of range raises. *)
Definition getitem {A : Type} (l : list A) (i : Z) : result A :=
  let n := len l in
  let j := if i <? 0 then i + n else i in
  if (0 <=? j) && (j <? n) then
    match nth_error l (Z.to_nat j) with
    | Some a => Ok a
    | None => Raise IndexError
    end
  else Raise IndexError.

(** [s[lo:hi]] on a string. *)
Definition str_slice (lo hi : option Z) (s : string) : string :=
  string_of_list_ascii (slice lo hi (list_ascii_of_string s)).

Definition str_len (s : string) : Z := Z.of_nat (String.length s).

(** [range(n)]. *)
Definition range (n : Z) : list Z := map Z.of_nat (seq 0 (Z.to_nat n)).

(** [c.isspace()] for a character below 256. *)
Definition isspace (c : ascii) : bool :=
  let n := nat_of_ascii c in
  ((9 <=? n) && (n <=? 13) || (28 <=? n) && (n <=? 32)
   || (n =? 133) || (n =? 160))%nat.

(** The characters [int] skips around a literal: those of [isspace]
    without the separators 28 to 31. *)
Definition int_space (c : ascii) : bool :=
  let n := nat_of_ascii c in
  ((9 <=? n) && (n <=? 13) || (n =? 32) || (n =? 133) || (n =? 160))%nat.

Fixpoint lstrip (space : ascii -> bool) (s : list ascii) : list ascii :=
  match s with
  | c :: s' => if space c then lstrip space s' else s
  | [] => []
  end.

Definition strip_with (space : ascii -> bool) (s : string) : string :=
  string_of_list_ascii
    (rev (lstrip space (rev (lstrip space (list_ascii_of_string s))))).

(** [s.strip()]. *)
Definition strip (s : string) : string := strip_with isspace s.

(** [s.split(sep)] for a one-character separator: always at least one
    field, empty fields kept. *)
Fixpoint split (sep : ascii) (s : string) : list string :=
  match s with
  | EmptyString => [EmptyString]
  | String c s' =>
      if Ascii.eqb c sep then EmptyString :: split sep s'
      else match split sep s' with
           | field :: fields => String c field :: fields
           | [] => [String c EmptyString]
           end
  end.

(** [c in s] for a character, and [sub in s] for a string. *)
Fixpoint contains_char (c : ascii) (s : string) : bool :=
  match s with
  | EmptyString => false
  | String c' s' => Ascii.eqb c' c || contains_char c s'
  end.

Fixpoint contains (sub s : string) : bool :=
  String.prefix sub s ||
  match s with
  | EmptyString => false
  | String _ s' => contains sub s'
  end.

Definition digit_of (c : ascii) : option Z :=
  let n := nat_of_ascii c in
  if ((48 <=? n) && (n <=? 57))%nat then Some (Z.of_nat n - 48) else None.

(** The digits of an integer literal: decimal digits, single underscores
    allowed between two digits. *)
Fixpoint digits (s : string) (acc : Z) (after_digit : bool) : option Z :=
  match s with
  | EmptyString => if after_digit then Some acc else None
  | String c s' =>
      if Ascii.eqb c "_" then
        if after_digit then digits s' acc false else None
      else match digit_of c with
           | Some d => digits s' (10 * acc + d) true
           | None => None
           end
  end.

(** [int(s)] on a string: surrounding whitespace and one sign accepted. *)
Definition int (s : string) : result Z :=
  let parsed :=
    match strip_with int_space s with
    | String "-" s' => option_map Z.opp (digits s' 0 false)
    | String "+" s' => digits s' 0 false
    | s' => digits s' 0 false
    end in
  match parsed with
  | Some z => Ok z
  | None => Raise ValueError
  end.

(** A line of a tab-separated file, with its newline. *)
Definition tsv (cols : list string) : string :=
  String.concat (String "009" EmptyString) cols
  ++ String "010" EmptyString.

End Py.

Declare Scope py_scope.
Notation "x <- m ;; k" := (Py.bind m (fun x => k))
  (at level 61, m at next level, right associativity) : py_scope.
Notation "' pat <- m ;; k" := (Py.bind m (fun x => match x with pat => k end))
  (at level 61, pat pattern, m at next level, right associativity) : py_scope.
Local Open Scope py_scope.

(* ================================================================== *)
(** * Facts about the Python primitives *)
(* ================================================================== *)

Module PyFacts.

Import Py.

Local Open Scope Z_scope.

(** ** Lengths and generic list facts *)

Lemma len_app {A} (l1 l2 : list A) : len (l1 ++ l2) = len l1 + len l2.
Proof. unfold len. rewrite length_app. lia. Qed.

Lemma len_nonneg {A} (l : list A) : 0 <= len l.
Proof. unfold len. lia. Qed.

Lemma filter_length_lt {A} (p : A -> bool) (l : list A) (x : A) :
  In x l -> p x = false -> (List.length (filter p l) < List.length l)%nat.
Proof.
  induction l as [|y l IH]; simpl; [contradiction|].
  intros [->|Hin] Hp.
  - rewrite Hp. pose proof (filter_length_le p l). lia.
  - specialize (IH Hin Hp). destruct (p y); simpl; lia.
Qed.

Lemma last_In {A} (l : list A) (d : A) : l <> [] -> In (last l d) l.
Proof.
  induction l as [|x l IH]; [congruence|]. intros _.
  destruct l as [|y l]; [left; reflexivity|].
  right. apply IH. discriminate.
Qed.

Lemma fold_left_invariant {A B} (P : A -> Prop) (f : A -> B -> A)
  (l : list B) :
  (forall a b, P a -> P (f a b)) -> forall a, P a -> P (fold_left f l a).
Proof. intros Hf; induction l; simpl; auto. Qed.

(** ** Subsequences *)

Inductive subseq {A : Type} : list A -> list A -> Prop :=
| subseq_nil : subseq [] []
| subseq_skip x l1 l2 : subseq l1 l2 -> subseq l1 (x :: l2)
| subseq_keep x l1 l2 : subseq l1 l2 -> subseq (x :: l1) (x :: l2).

Lemma subseq_refl {A} (l : list A) : subseq l l.
Proof. induction l; constructor; assumption. Qed.

Lemma subseq_nil_l {A} (l : list A) : subseq [] l.
Proof. induction l; constructor; assumption. Qed.

Lemma subseq_trans {A} (l1 l2 l3 : list A) :
  subseq l1 l2 -> subseq l2 l3 -> subseq l1 l3.
Proof.
  intros H12 H23; revert l1 H12.
  induction H23 as [|x l2 l3 _ IH|x l2 l3 _ IH]; intros l1 H12.
  - assumption.
  - constructor; auto.
  - inversion H12; subst; [apply subseq_skip | apply subseq_keep]; auto.
Qed.







(** ** Slices *)


(** Three consecutive slices with bounds [0 <= a <= b] split a list. *)
Lemma slice_three_way {A} (a b : Z) (l : list A) :
  0 <= a <= b ->
  (slice None (Some a) l ++ slice (Some a) (Some b) l
   ++ slice (Some b) None l)%list = l.
Proof.
  intros Hab. unfold slice, norm_bound.
  destruct (Z.ltb_spec a 0); [lia|]. destruct (Z.ltb_spec b 0); [lia|].
  set (n := len l).
  assert (Hn : n = Z.of_nat (List.length l)) by reflexivity.
  rewrite Z.sub_0_r. change (Z.to_nat 0) with 0%nat. rewrite skipn_O.
  rewrite (firstn_all2 (n := Z.to_nat (n - Z.min b n)))
    by (rewrite length_skipn; lia).
  replace (Z.to_nat (Z.min b n))
    with (Z.to_nat (Z.min b n - Z.min a n) + Z.to_nat (Z.min a n))%nat by lia.
  rewrite <- skipn_skipn.
  rewrite firstn_skipn, firstn_skipn. reflexivity.
Qed.

Lemma slice_two_way {A} (a : Z) (l : list A) :
  0 <= a ->
  (slice None (Some a) l ++ slice (Some a) None l)%list = l.
Proof.
  intros Ha. unfold slice, norm_bound.
  destruct (Z.ltb_spec a 0); [lia|].
  set (n := len l).
  assert (Hn : n = Z.of_nat (List.length l)) by reflexivity.
  rewrite Z.sub_0_r. change (Z.to_nat 0) with 0%nat. rewrite skipn_O.
  rewrite (firstn_all2 (n := Z.to_nat (n - Z.min a n)))
    by (rewrite length_skipn; lia).
  apply firstn_skipn.
Qed.

(** Slices whose bounds are inside the list. *)
Lemma slice_inside {A} (lo hi : Z) (l : list A) :
  0 <= lo <= hi -> hi <= len l ->
  slice (Some lo) (Some hi) l
  = firstn (Z.to_nat (hi - lo)) (skipn (Z.to_nat lo) l).
Proof.
  intros H1 H2. unfold slice, norm_bound.
  destruct (Z.ltb_spec lo 0); [lia|]. destruct (Z.ltb_spec hi 0); [lia|].
  now rewrite !Z.min_l by lia.
Qed.

Lemma slice_prefix {A} (hi : Z) (l : list A) :
  0 <= hi <= len l -> slice None (Some hi) l = firstn (Z.to_nat hi) l.
Proof.
  intros H. unfold slice, norm_bound.
  destruct (Z.ltb_spec hi 0); [lia|].
  now rewrite Z.min_l, Z.sub_0_r by lia.
Qed.

Lemma slice_suffix {A} (lo : Z) (l : list A) :
  0 <= lo <= len l -> slice (Some lo) None l = skipn (Z.to_nat lo) l.
Proof.
  intros H. unfold slice, norm_bound.
  destruct (Z.ltb_spec lo 0); [lia|].
  rewrite Z.min_l by lia. apply firstn_all2.
  rewrite length_skipn. unfold len in *. lia.
Qed.

(** ** Indexing and [range] *)

Definition in_range (n : Z) (i : Z) : Prop := 0 <= i < n.

Lemma getitem_in_range {A} (l : list A) (i : Z) :
  in_range (len l) i -> exists x, getitem l i = Ok x.
Proof.
  unfold in_range, getitem, len. intros Hi.
  destruct (Z.ltb_spec i 0); [lia|].
  destruct (Z.leb_spec 0 i); [|lia].
  destruct (Z.ltb_spec i (Z.of_nat (List.length l))); [|lia]. simpl.
  destruct (nth_error l (Z.to_nat i)) eqn:Hn; [eauto|].
  apply nth_error_None in Hn. lia.
Qed.

Lemma getitem_In {A} (l : list A) (i : Z) (x : A) :
  getitem l i = Ok x -> In x l.
Proof.
  unfold getitem. destruct (_ && _); [|discriminate].
  destruct (nth_error l _) eqn:Hn; [|discriminate].
  intros H; inversion H; subst. eapply nth_error_In; eauto.
Qed.

Lemma getitem_at {A} (l : list A) (i : Z) (x : A) :
  0 <= i -> nth_error l (Z.to_nat i) = Some x -> getitem l i = Ok x.
Proof.
  intros Hi Hn. unfold getitem.
  assert (Hlt : (Z.to_nat i < List.length l)%nat)
    by (apply nth_error_Some; congruence).
  destruct (Z.ltb_spec i 0); [lia|].
  destruct (Z.leb_spec 0 i); [|lia].
  destruct (Z.ltb_spec i (len l)); [|unfold len in *; lia].
  simpl. now rewrite Hn.
Qed.

Lemma getitem_app_middle {A} (pre post : list A) (x : A) :
  getitem (pre ++ x :: post) (len pre) = Ok x.
Proof.
  unfold getitem, len. rewrite length_app. simpl List.length.
  destruct (Z.ltb_spec (Z.of_nat (List.length pre)) 0); [lia|].
  destruct (Z.leb_spec 0 (Z.of_nat (List.length pre))); [|lia].
  destruct (Z.ltb_spec (Z.of_nat (List.length pre))
              (Z.of_nat (List.length pre + S (List.length post)))); [|lia].
  simpl. rewrite Nat2Z.id, nth_error_app2, Nat.sub_diag by lia. reflexivity.
Qed.




(** ** Strings *)

(** Strings as lists of characters. *)
Lemma chars_length (s : string) :
  List.length (list_ascii_of_string s) = String.length s.
Proof. induction s; simpl; congruence. Qed.

Lemma chars_app (a b : string) :
  list_ascii_of_string (a ++ b)
  = (list_ascii_of_string a ++ list_ascii_of_string b)%list.
Proof. induction a; simpl; congruence. Qed.

Lemma chars_inj (a b : string) :
  list_ascii_of_string a = list_ascii_of_string b -> a = b.
Proof.
  intros H. rewrite <- (string_of_list_ascii_of_string a),
    <- (string_of_list_ascii_of_string b). now rewrite H.
Qed.

Lemma str_len_chars (s : string) : str_len s = len (list_ascii_of_string s).
Proof. unfold str_len, len. now rewrite chars_length. Qed.

Lemma chars_str_slice lo hi (s : string) :
  list_ascii_of_string (str_slice lo hi s)
  = slice lo hi (list_ascii_of_string s).
Proof. unfold str_slice. apply list_ascii_of_string_of_list_ascii. Qed.

Lemma prefix_head (c : ascii) (sub s : string) :
  String.prefix (String c sub) s = true -> contains_char c s = true.
Proof.
  destruct s as [|c' s]; simpl; [discriminate|].
  destruct (ascii_dec c c') as [->|]; [|discriminate].
  intros _. now rewrite Ascii.eqb_refl.
Qed.

Lemma contains_head (c : ascii) (sub s : string) :
  contains (String c sub) s = true -> contains_char c s = true.
Proof.
  induction s as [|c' s IH].
  - simpl. discriminate.
  - change (contains (String c sub) (String c' s))
      with (String.prefix (String c sub) (String c' s)
            || contains (String c sub) s).
    intros H. apply orb_true_iff in H. destruct H as [H|H].
    + now apply prefix_head in H.
    + simpl. rewrite (IH H). apply orb_true_r.
Qed.

End PyFacts.

(* ================================================================== *)
(** * Interval sampler: [intervals_sampler.py] *)
(* ================================================================== *)

Module IntervalsSampler.

Import Py PyFacts.

Local Open Scope string_scope.
Local Open Scope Z_scope.

(** ** numpy values *)

(** A binary64 value: a finite one is the rational it stands for. *)
Inductive weight : Type :=
| Fin (q : Q)
| PosInf
| NegInf
| NaN.

(** The relative error allowed to one operation of the sampler:
    [2 ** -50], eight times the unit roundoff of binary64. *)
Definition eps : Q := 1 # 1125899906842624.

(** The binary64 operations of the sampler on finite values.  A result
    is within the relative error [eps] of the exact one; the range of the
    exponent is not bounded. *)
Record Arithmetic : Type := mkArithmetic {
  (** [x / float(total)] for integers [x] and [total <> 0] *)
  fl_div : Z -> Z -> Q;
  (** [n * fraction] for an integer and a binary64 value *)
  fl_mul : Z -> Q -> Q;
  fl_div_error :
    forall x total, total <> 0 ->
      (Qabs (fl_div x total - inject_Z x / inject_Z total)
       <= eps * Qabs (inject_Z x / inject_Z total))%Q;
  fl_mul_error :
    forall n q,
      (Qabs (fl_mul n q - inject_Z n * q) <= eps * Qabs (inject_Z n * q))%Q
}.

Lemma exact_error (q : Q) : (Qabs (q - q) <= eps * Qabs q)%Q.
Proof.
  setoid_replace (q - q)%Q with 0%Q by ring.
  apply Qmult_le_0_compat; [discriminate | apply Qabs_nonneg].
Qed.

(** The arithmetic without rounding. *)
Definition exact_arithmetic : Arithmetic :=
  mkArithmetic (fun x total => inject_Z x / inject_Z total)%Q
    (fun n q => inject_Z n * q)%Q
    (fun x total _ => exact_error _) (fun n q => exact_error _).

(** [x / float(total)] for an integer [x] of an array: a division by
    zero gives an infinity or NaN. *)
Definition np_true_divide (F : Arithmetic) (x total : Z) : weight :=
  if total =? 0 then
    if 0 <? x then PosInf else if x <? 0 then NegInf else NaN
  else Fin (fl_div F x total).

(** The binary64 value of the literal [1e-10]:
    [7737125245533627 * 2 ** -86]. *)
Definition threshold : Q :=
  7737125245533627 # 77371252455336267181195264.

(** [int(x)] for a binary64 value: truncation towards zero. *)
Definition trunc (x : Q) : Z := Z.quot (Qnum x) (Z.pos (Qden x)).

(** [weight > 1e-10]; a comparison with NaN is false. *)
Definition gt_threshold (w : weight) : bool :=
  match w with
  | Fin q => negb (Qle_bool q threshold)
  | PosInf => true
  | NegInf | NaN => false
  end.

(** [np.array(a)[indices]] for a list of integer indices. *)
Fixpoint take (a : list Z) (indices : list Z) : result (list Z) :=
  match indices with
  | [] => Ok []
  | i :: rest =>
      x <- getitem a i ;; xs <- take a rest ;; Ok (x :: xs)
  end.

(** The value a 64-bit signed integer holds after an operation wraps
    around. *)
Definition int64 (x : Z) : Z :=
  (x + 9223372036854775808) mod 18446744073709551616 - 9223372036854775808.

Definition Zsum (a : list Z) : Z := fold_right Z.add 0 a.

(** A value an int64 holds.  [np.array] makes an int64 array of a list of
    such values; a list with a value outside the range becomes an array
    of another type, which this model does not describe. *)
Definition int64_value (x : Z) : Prop :=
  - 9223372036854775808 <= x < 9223372036854775808.

(** [np.sum] of an int64 array, the array [np.array] makes of a list of
    [int64_value]s: the sum wraps around at 64 bits. *)
Definition np_sum (a : list Z) : Z := int64 (Zsum a).

(** The lengths are small enough for the sum of any selection among them
    not to wrap around: their absolute values total less than [2 ** 63]. *)
Definition no_overflow (a : list Z) : Prop :=
  Zsum (map Z.abs a) < 9223372036854775808.

Definition Qsum (l : list Q) : Q := fold_right Qplus 0%Q l.

(** ** [_get_indices_and_probabilities] *)

(** The loop over [enumerate(weights)] that appends [indices[index]] for
    every weight above the threshold. *)
Fixpoint keep_indices {A : Type} (indices : list A) (weights : list weight)
  : list A :=
  match indices, weights with
  | i :: indices', w :: weights' =>
      if gt_threshold w then i :: keep_indices indices' weights'
      else keep_indices indices' weights'
  | _, _ => []
  end.

(** One activation of the function: it either returns or calls itself on
    [keep_indices]. *)
Inductive pass : Type :=
| Return (indices : list Z) (weights : list weight)
| Recurse (keep : list Z).

Definition selector_pass (F : Arithmetic) (interval_lengths indices : list Z)
  : result pass :=
  select_interval_lens <- take interval_lengths indices ;;
  let total := np_sum select_interval_lens in
  let weights :=
    map (fun x => np_true_divide F x total) select_interval_lens in
  let keep := keep_indices indices weights in
  if len keep =? len indices then Ok (Return indices weights)
  else Ok (Recurse keep).

(** The recursion, at most [depth] calls deep.  Every call shrinks the
    candidate list, so [length indices] calls are always enough
    ([selector_loop_depth]) and the bound is never reached. *)
Fixpoint selector_loop (F : Arithmetic) (depth : nat)
  (interval_lengths indices : list Z) : result (list Z * list weight) :=
  p <- selector_pass F interval_lengths indices ;;
  match p with
  | Return indices weights => Ok (indices, weights)
  | Recurse keep =>
      match depth with
      | O => Raise RecursionError
      | S depth' => selector_loop F depth' interval_lengths keep
      end
  end.

Definition _get_indices_and_probabilities (F : Arithmetic)
  (interval_lengths indices : list Z) : result (list Z * list weight) :=
  selector_loop F (List.length indices) interval_lengths indices.

(** ** The sampler object *)

Inductive mode : Type := Train | Validate | Test.

Definition mode_eqb (a b : mode) : bool :=
  match a, b with
  | Train, Train | Validate, Validate | Test, Test => true
  | _, _ => false
  end.

(** A dictionary keyed by mode names; [None] is a missing key. *)
Definition dict (V : Type) : Type := mode -> option V.

Definition dict_empty {V : Type} : dict V := fun _ => None.

Definition dict_get {V : Type} (d : dict V) (k : mode) : result V :=
  match d k with
  | Some v => Ok v
  | None => Raise KeyError
  end.

Definition dict_set {V : Type} (d : dict V) (k : mode) (v : V) : dict V :=
  fun k' => if mode_eqb k' k then Some v else d k'.

Record SampleIndices : Type := mkSampleIndices {
  indices : list Z;
  weights : list weight
}.

(** An entry of [_randcache]: the keys ["cache"] (always [None]),
    ["cache_indices"] (missing until the first refill) and
    ["sample_next"]. *)
Record cache_entry : Type := mkCacheEntry {
  cache : option (list Z);
  cache_indices : option (list Z);
  sample_next : Z
}.

(** A holdout as the constructor receives it: chromosome names or a
    fraction. *)
Inductive holdout : Type :=
| Chromosomes (names : list string)
| Proportion (fraction : Q).

Inductive holdout_type : Type := chromosome | proportion.

(** numpy's global random state, as far as the sampler uses it. *)
Record RandomState : Type := mkRandomState {
  rng : Type;
  (** [np.random.shuffle]: the permuted list and the next state. *)
  shuffle : rng -> list Z -> list Z * rng;
  (** [random_sample]: a uniform sample of [[0, 1)] and the next state. *)
  random_sample : rng -> Q * rng;
  shuffle_permutation :
    forall g l, Permutation (fst (shuffle g l)) l;
  random_sample_range :
    forall g, (0 <= fst (random_sample g))%Q /\ (fst (random_sample g) < 1)%Q
}.

(** A deterministic instance: [shuffle] reverses, and the samples walk
    through [0, 1/4, 1/2, 3/4]. *)
Definition quarters (g : nat) : Q * nat :=
  (inject_Z (Z.of_nat (g mod 4)) / 4, S g)%Q.

Lemma quarters_range (g : nat) :
  (0 <= fst (quarters g))%Q /\ (fst (quarters g) < 1)%Q.
Proof.
  unfold quarters.
  pose proof (Nat.mod_upper_bound g 4 ltac:(lia)) as Hm.
  set (k := (g mod 4)%nat) in *; clearbody k.
  unfold Qle, Qlt, Qdiv, Qmult, Qinv, inject_Z; simpl. lia.
Qed.

Definition counter_state : RandomState :=
  mkRandomState nat
    (fun g l => (rev l, S g)) quarters
    (fun g l => Permutation_sym (Permutation_rev l))
    quarters_range.

Section Sampler.

Variable F : Arithmetic.
Variable R : RandomState.

Record sampler : Type := mkSampler {
  (** set by [OnlineSampler.__init__] *)
  modes : list mode;
  current_mode : mode;
  _holdout_type : holdout_type;
  validation_holdout : holdout;
  test_holdout : option holdout;
  (** set by [IntervalsSampler.__init__] *)
  _sample_from_mode : dict (option SampleIndices);
  _randcache : dict cache_entry;
  sample_from_intervals : list (string * Z * Z);
  interval_lengths : list Z;
  (** the state of [np.random] *)
  random_state : rng R
}.

Definition set_sample_from_mode (s : sampler) (d : dict (option SampleIndices))
  : sampler :=
  mkSampler (modes s) (current_mode s) (_holdout_type s)
    (validation_holdout s) (test_holdout s) d (_randcache s)
    (sample_from_intervals s) (interval_lengths s) (random_state s).

Definition set_randcache (s : sampler) (d : dict cache_entry) : sampler :=
  mkSampler (modes s) (current_mode s) (_holdout_type s)
    (validation_holdout s) (test_holdout s) (_sample_from_mode s) d
    (sample_from_intervals s) (interval_lengths s) (random_state s).

Definition set_intervals (s : sampler) (ivs : list (string * Z * Z))
  (lens : list Z) : sampler :=
  mkSampler (modes s) (current_mode s) (_holdout_type s)
    (validation_holdout s) (test_holdout s) (_sample_from_mode s)
    (_randcache s) ivs lens (random_state s).

Definition set_random_state (s : sampler) (g : rng R) : sampler :=
  mkSampler (modes s) (current_mode s) (_holdout_type s)
    (validation_holdout s) (test_holdout s) (_sample_from_mode s)
    (_randcache s) (sample_from_intervals s) (interval_lengths s) g.

(** [self._sample_from_mode[mode].indices] and [.weights]: the key may be
    missing and the entry may be [None]. *)
Definition sample_indices_of (s : sampler) (m : mode) : result SampleIndices :=
  entry <- dict_get (_sample_from_mode s) m ;;
  match entry with
  | Some si => Ok si
  | None => Raise AttributeError
  end.

(** The index list a mode holds, empty when it holds none. *)
Definition stored_indices (s : sampler) (m : mode) : list Z :=
  match _sample_from_mode s m with
  | Some (Some si) => indices si
  | _ => []
  end.

(** ** Reading the intervals file *)

(** One line: [cols = line.strip().split('\t')], then [cols[0]],
    [int(cols[1])], [int(cols[2])]. *)
Definition read_interval (line : string) : result (string * Z * Z) :=
  let cols := split "009" (strip line) in
  chrom <- getitem cols 0 ;;
  start_text <- getitem cols 1 ;;
  start <- int start_text ;;
  end_text <- getitem cols 2 ;;
  end_ <- int end_text ;;
  Ok (chrom, start, end_).

(** Truth value of [self.test_holdout]. *)
Definition truthy (h : option holdout) : bool :=
  match h with
  | None => false
  | Some (Chromosomes names) => negb (len names =? 0)
  | Some (Proportion q) => negb (Qeq_bool q 0)
  end.

(** [int(n * fraction)]; a list of names in the place of the fraction
    is a type error. *)
Definition int_of_product (n : Z) (h : holdout) : result Z :=
  match h with
  | Proportion q => Ok (trunc (fl_mul F n q))
  | Chromosomes _ => Raise TypeError
  end.

(** ** [_partition_dataset_proportion] *)

Fixpoint read_intervals_proportion (lines : list string) (s : sampler)
  : result sampler :=
  match lines with
  | [] => Ok s
  | line :: lines' =>
      '(chrom, start, end_) <- read_interval line ;;
      read_intervals_proportion lines'
        (set_intervals s
           (sample_from_intervals s ++ [(chrom, start, end_)])
           (interval_lengths s ++ [end_ - start]))
  end.

Definition store (s : sampler) (m : mode) (si : list Z * list weight)
  : sampler :=
  set_sample_from_mode s
    (dict_set (_sample_from_mode s) m
       (Some (mkSampleIndices (fst si) (snd si)))).

Definition _partition_dataset_proportion (intervals_file : list string)
  (s : sampler) : result sampler :=
  s <- read_intervals_proportion intervals_file s ;;
  let n_intervals := len (sample_from_intervals s) in
  let '(select_indices, g) := shuffle R (random_state s) (range n_intervals) in
  let s := set_random_state s g in
  n_indices_validate <- int_of_product n_intervals (validation_holdout s) ;;
  val <- _get_indices_and_probabilities F (interval_lengths s)
           (slice None (Some n_indices_validate) select_indices) ;;
  let s := store s Validate val in
  if truthy (test_holdout s) then
    n_indices_test <-
      match test_holdout s with
      | Some h => int_of_product n_intervals h
      | None => Raise TypeError
      end ;;
    let test_indices_end := n_indices_test + n_indices_validate in
    test <- _get_indices_and_probabilities F (interval_lengths s)
              (slice (Some n_indices_validate) (Some test_indices_end)
                 select_indices) ;;
    let s := store s Test test in
    tr <- _get_indices_and_probabilities F (interval_lengths s)
            (slice (Some test_indices_end) None select_indices) ;;
    Ok (store s Train tr)
  else
    tr <- _get_indices_and_probabilities F (interval_lengths s)
            (slice (Some n_indices_validate) None select_indices) ;;
    Ok (store s Train tr).

(** ** [_partition_dataset_chromosome] *)

(** [chrom in self.validation_holdout]. *)
Definition holdout_contains (h : holdout) (chrom : string) : result bool :=
  match h with
  | Chromosomes names => Ok (existsb (String.eqb chrom) names)
  | Proportion _ => Raise TypeError
  end.

(** [self._sample_from_mode[m].indices.append(index)]. *)
Definition append_index (s : sampler) (m : mode) (index : Z) : result sampler :=
  si <- sample_indices_of s m ;;
  Ok (set_sample_from_mode s
        (dict_set (_sample_from_mode s) m
           (Some (mkSampleIndices (indices si ++ [index]) (weights si))))).

Fixpoint read_intervals_chromosome (lines : list string) (index : Z)
  (s : sampler) : result sampler :=
  match lines with
  | [] => Ok s
  | line :: lines' =>
      '(chrom, start, end_) <- read_interval line ;;
      in_validation <- holdout_contains (validation_holdout s) chrom ;;
      s <- (if in_validation then append_index s Validate index
            else if truthy (test_holdout s) then
              in_test <-
                match test_holdout s with
                | Some h => holdout_contains h chrom
                | None => Raise TypeError
                end ;;
              if in_test then append_index s Test index
              else append_index s Train index
            else append_index s Train index) ;;
      read_intervals_chromosome lines' (index + 1)
        (set_intervals s
           (sample_from_intervals s ++ [(chrom, start, end_)])
           (interval_lengths s ++ [end_ - start]))
  end.

(** [for mode in self.modes: body]. *)
Fixpoint for_modes (body : mode -> sampler -> result sampler)
  (ms : list mode) (s : sampler) : result sampler :=
  match ms with
  | [] => Ok s
  | m :: ms' => s' <- body m s ;; for_modes body ms' s'
  end.

Definition reselect (m : mode) (s : sampler) : result sampler :=
  si <- sample_indices_of s m ;;
  r <- _get_indices_and_probabilities F (interval_lengths s) (indices si) ;;
  Ok (store s m r).

Definition _partition_dataset_chromosome (intervals_file : list string)
  (s : sampler) : result sampler :=
  s <- for_modes
         (fun m s =>
            Ok (set_sample_from_mode s
                  (dict_set (_sample_from_mode s) m
                     (Some (mkSampleIndices [] [])))))
         (modes s) s ;;
  s <- read_intervals_chromosome intervals_file 0 s ;;
  for_modes reselect (modes s) s.

(** ** [np.random.choice(a, size, replace=True, p)] *)

Fixpoint finite_all (p : list weight) : option (list Q) :=
  match p with
  | [] => Some []
  | Fin q :: p' => option_map (cons q) (finite_all p')
  | _ :: _ => None
  end.

Fixpoint cumsum (acc : Q) (p : list Q) : list Q :=
  match p with
  | [] => []
  | x :: p' => (acc + x)%Q :: cumsum (acc + x)%Q p'
  end.

(** [cdf.searchsorted(u, side='right')] on a sorted array: the number of
    entries that are at most [u]. *)
Definition searchsorted_right (cdf : list Q) (u : Q) : Z :=
  len (filter (fun c => Qle_bool c u) cdf).

Fixpoint random_samples (n : nat) (g : rng R) : list Q * rng R :=
  match n with
  | O => ([], g)
  | S n' =>
      let '(u, g) := random_sample R g in
      let '(us, g) := random_samples n' g in
      (u :: us, g)
  end.

(** [sqrt(np.finfo(np.float64).eps)], that is [2 ** -26]. *)
Definition atol : Q := 1 # 67108864.

Definition np_random_choice (a : list Z) (size : Z) (p : list weight)
  (g : rng R) : result (list Z * rng R) :=
  if (len a =? 0) && negb (size =? 0) then Raise ValueError
  else if negb (len p =? len a) then Raise ValueError
  else match finite_all p with
       | None => Raise ValueError
       | Some p =>
           if existsb (fun q => negb (Qle_bool 0 q)) p then Raise ValueError
           else if negb (Qle_bool (Qabs (Qsum p - 1)) atol) then
             Raise ValueError
           else if size <? 0 then Raise ValueError
           else
             let cdf := cumsum 0 p in
             let cdf := map (fun c => c / last cdf 0)%Q cdf in
             let '(uniform_samples, g) := random_samples (Z.to_nat size) g in
             let idx := map (searchsorted_right cdf) uniform_samples in
             drawn <- take a idx ;;
             Ok (drawn, g)
       end.

(** ** [_update_randcache] and the index read of [sample] *)

Definition _update_randcache (m : option mode) (s : sampler) : result sampler :=
  let m := match m with Some m => m | None => current_mode s end in
  si <- sample_indices_of s m ;;
  '(drawn, g) <- np_random_choice (indices si) (len (indices si))
                   (weights si) (random_state s) ;;
  let s := set_random_state s g in
  entry <- dict_get (_randcache s) m ;;
  Ok (set_randcache s
        (dict_set (_randcache s) m
           (mkCacheEntry (cache entry) (Some drawn) 0))).

(** The head of the loop body of [sample]: the next interval index, and
    the sampler with the cursor advanced. *)
Definition next_index (s : sampler) : result (Z * sampler) :=
  entry <- dict_get (_randcache s) (current_mode s) ;;
  let sample_index := sample_next entry in
  si <- sample_indices_of s (current_mode s) ;;
  '(s, sample_index) <-
    (if sample_index =? len (indices si) then
       s <- _update_randcache None s ;; Ok (s, 0)
     else Ok (s, sample_index)) ;;
  entry <- dict_get (_randcache s) (current_mode s) ;;
  drawn <- match cache_indices entry with
           | Some c => Ok c
           | None => Raise KeyError
           end ;;
  rand_interval_index <- getitem drawn sample_index ;;
  Ok (rand_interval_index,
      set_randcache s
        (dict_set (_randcache s) (current_mode s)
           (mkCacheEntry (cache entry) (cache_indices entry)
              (sample_next entry + 1)))).

(** [n] successive index reads. *)
Fixpoint read_indices (n : nat) (s : sampler) : result (list Z * sampler) :=
  match n with
  | O => Ok ([], s)
  | S n' =>
      '(i, s) <- next_index s ;;
      '(rest, s) <- read_indices n' s ;;
      Ok (i :: rest, s)
  end.

(** ** [IntervalsSampler.__init__] *)

(** The attributes after the first loop of the constructor:
    [OnlineSampler.__init__] has set the modes, the current mode ["train"],
    the holdouts and their type; every mode has the entry [None] in
    [_sample_from_mode] and a cache without drawn indices. *)
Definition new_sampler (ms : list mode) (ht : holdout_type)
  (validation : holdout) (test : option holdout) (g : rng R) : sampler :=
  fold_left
    (fun s m =>
       let s := set_sample_from_mode s
                  (dict_set (_sample_from_mode s) m None) in
       set_randcache s
         (dict_set (_randcache s) m (mkCacheEntry None None 0)))
    ms
    (mkSampler ms Train ht validation test dict_empty dict_empty [] [] g).

Definition partition_dataset (intervals_file : list string) (s : sampler)
  : result sampler :=
  match _holdout_type s with
  | chromosome => _partition_dataset_chromosome intervals_file s
  | proportion => _partition_dataset_proportion intervals_file s
  end.

Definition __init__ (ms : list mode) (ht : holdout_type)
  (validation : holdout) (test : option holdout) (g : rng R)
  (intervals_file : list string) : result sampler :=
  let s := new_sampler ms ht validation test g in
  s <- partition_dataset intervals_file s ;;
  for_modes (fun m s => _update_randcache (Some m) s) (modes s) s.

End Sampler.

Arguments modes {R} s.
Arguments current_mode {R} s.
Arguments _holdout_type {R} s.
Arguments validation_holdout {R} s.
Arguments test_holdout {R} s.
Arguments _sample_from_mode {R} s.
Arguments _randcache {R} s.
Arguments sample_from_intervals {R} s.
Arguments interval_lengths {R} s.
Arguments random_state {R} s.
Arguments stored_indices {R} s m.
Arguments sample_indices_of {R} s m.

(** ** Example inputs *)

(** Three intervals of lengths 10, 0 and 90. *)
Definition three_intervals : list string :=
  [tsv ["chr1"; "0"; "10"]; tsv ["chr2"; "5"; "5"];
   tsv ["chr3"; "10"; "100"]].


(** A sampler whose train partition holds two intervals, before the first
    refill. *)
Definition train_sampler : sampler counter_state :=
  mkSampler counter_state [Train] Train proportion (Proportion 0) None
    (dict_set dict_empty Train
       (Some (mkSampleIndices [0; 2] [Fin (1 # 10); Fin (9 # 10)])))
    (dict_set dict_empty Train (mkCacheEntry None None 0))
    [("chr1", 0, 10); ("chr2", 5, 5); ("chr3", 10, 100)] [10; 0; 90] 0%nat.

(** ** Properties of [_get_indices_and_probabilities] *)

Lemma take_length a indices sel :
  take a indices = Ok sel -> List.length sel = List.length indices.
Proof.
  revert sel; induction indices as [|i rest IH]; simpl; intros sel H.
  - now inversion H.
  - destruct (getitem a i); simpl in H; [|discriminate].
    destruct (take a rest) as [xs|]; simpl in H; [|discriminate].
    inversion H; subst; simpl; now rewrite (IH xs).
Qed.

Lemma keep_indices_length_le {A} (l : list A) ws :
  (List.length (keep_indices l ws) <= List.length l)%nat.
Proof.
  revert ws; induction l as [|i l IH]; intros [|w ws]; simpl; try lia.
  destruct (gt_threshold w); simpl; specialize (IH ws); lia.
Qed.

Lemma keep_indices_all {A} (l : list A) ws :
  List.length ws = List.length l ->
  List.length (keep_indices l ws) = List.length l ->
  keep_indices l ws = l /\ Forall (fun w => gt_threshold w = true) ws.
Proof.
  revert ws; induction l as [|i l IH]; intros [|w ws]; simpl; try discriminate.
  - auto.
  - intros Hl Hk. destruct (gt_threshold w) eqn:Hw.
    + simpl in Hk. destruct (IH ws) as [E F]; try lia.
      rewrite E; auto.
    + pose proof (keep_indices_length_le l ws); lia.
Qed.

Lemma take_keep a indices sel ws :
  take a indices = Ok sel ->
  take a (keep_indices indices ws) = Ok (keep_indices sel ws).
Proof.
  revert sel ws; induction indices as [|i rest IH]; simpl; intros sel ws H.
  - inversion H; subst. destruct ws; reflexivity.
  - destruct (getitem a i) eqn:Hg; simpl in H; [|discriminate].
    destruct (take a rest) as [xs|] eqn:Ht; simpl in H; [|discriminate].
    inversion H; subst. destruct ws as [|w ws]; [reflexivity|]. simpl.
    destruct (gt_threshold w); simpl.
    + rewrite Hg; simpl. rewrite (IH xs ws eq_refl). reflexivity.
    + apply IH; reflexivity.
Qed.

Lemma Zsum_positive (sel : list Z) :
  Forall (fun x => 0 < x) sel -> sel <> [] -> 0 < Zsum sel.
Proof.
  intros H. induction H as [|x sel Hx H IH]; [congruence|]. intros _. simpl.
  destruct sel as [|y sel]; [simpl; lia|].
  assert (0 < Zsum (y :: sel)) by (apply IH; congruence). lia.
Qed.

Lemma int64_exact (x : Z) :
  -9223372036854775808 <= x < 9223372036854775808 -> int64 x = x.
Proof. intros H. unfold int64. rewrite Z.mod_small; lia. Qed.

Lemma Zsum_abs (sel : list Z) : Z.abs (Zsum sel) <= Zsum (map Z.abs sel).
Proof. induction sel as [|x sel IH]; simpl; lia. Qed.

Lemma Zsum_abs_subseq (sub sel : list Z) :
  subseq sub sel -> Zsum (map Z.abs sub) <= Zsum (map Z.abs sel).
Proof. induction 1; simpl; lia. Qed.

Lemma no_overflow_subseq (sub sel : list Z) :
  subseq sub sel -> no_overflow sel -> no_overflow sub.
Proof.
  unfold no_overflow. intros H Hsel. apply Zsum_abs_subseq in H. lia.
Qed.

(** Without wrap-around [np.sum] is the sum. *)
Lemma np_sum_exact (sel : list Z) : no_overflow sel -> np_sum sel = Zsum sel.
Proof.
  unfold no_overflow, np_sum. intros H. pose proof (Zsum_abs sel).
  apply int64_exact. lia.
Qed.

Lemma gt_threshold_Fin q : gt_threshold (Fin q) = true <-> (threshold < q)%Q.
Proof.
  simpl. rewrite negb_true_iff, <- not_true_iff_false, Qle_bool_iff.
  split; [apply Qnot_le_lt | apply Qlt_not_le].
Qed.

(** Quotients of integers against a fraction [a / b]. *)
Lemma quotient_le (x s a : Z) (b : positive) :
  0 < s ->
  (inject_Z x / inject_Z s <= a # b)%Q <-> x * Z.pos b <= a * s.
Proof.
  intros Hs. destruct s as [|p|p]; try lia.
  unfold Qle, Qdiv, Qmult, Qinv, inject_Z; simpl Qnum; simpl Qden.
  lia.
Qed.

Lemma quotient_lt (x s a : Z) (b : positive) :
  0 < s ->
  (a # b < inject_Z x / inject_Z s)%Q <-> a * s < x * Z.pos b.
Proof.
  intros Hs. destruct s as [|p|p]; try lia.
  unfold Qlt, Qdiv, Qmult, Qinv, inject_Z; simpl Qnum; simpl Qden.
  lia.
Qed.

Lemma Qsum_div (sel : list Z) (s : Z) :
  (Qsum (map (fun x => inject_Z x / inject_Z s) sel)
   == inject_Z (Zsum sel) / inject_Z s)%Q.
Proof.
  induction sel as [|x sel IH]; simpl.
  - unfold Qdiv. now rewrite Qmult_0_l.
  - rewrite IH, inject_Z_plus. unfold Qdiv.
    now rewrite Qmult_plus_distr_l.
Qed.

(** A pass that keeps nothing needs at least [10^10 - 1] candidates. *)
Lemma sum_below (sel : list Z) (s : Z) :
  Forall (fun x => x * 9999999999 <= s) sel ->
  Zsum sel * 9999999999 <= Z.of_nat (List.length sel) * s.
Proof.
  induction 1 as [|x sel Hx _ IH]; simpl Zsum; simpl List.length; lia.
Qed.

Lemma div_zero_kept (F : Arithmetic) (sel : list Z) :
  Forall (fun w => gt_threshold w = true)
    (map (fun x => np_true_divide F x 0) sel) ->
  Forall (fun x => 0 < x) sel.
Proof.
  induction sel as [|x sel IH]; simpl; intros H; inversion H; subst;
    constructor; auto.
  unfold np_true_divide in H2; simpl in H2.
  destruct (Z.ltb_spec 0 x); [assumption|].
  destruct (x <? 0); discriminate.
Qed.

Lemma keep_indices_subseq {A} (l : list A) ws : subseq (keep_indices l ws) l.
Proof.
  revert ws; induction l as [|i l IH]; intros [|w ws]; simpl;
    try apply subseq_nil_l.
  destruct (gt_threshold w); [apply subseq_keep | apply subseq_skip]; apply IH.
Qed.

Lemma take_in_range (a indices : list Z) :
  Forall (in_range (len a)) indices -> exists sel, take a indices = Ok sel.
Proof.
  induction 1 as [|i rest Hi _ [sel IH]]; simpl; [eauto|].
  destruct (getitem_in_range a i Hi) as [x ->]. rewrite IH. simpl. eauto.
Qed.

Lemma keep_indices_kept {A} (l : list A) (ws : list weight) :
  List.length ws = List.length l ->
  Forall (fun w => gt_threshold w = true) ws ->
  keep_indices l ws = l.
Proof.
  revert ws; induction l as [|i l IH]; intros [|w ws]; simpl;
    try discriminate; [reflexivity|].
  intros Hl Hw. inversion Hw as [|? ? Hw1 Hw2]; subst.
  rewrite Hw1, IH; auto.
Qed.

Section Selector.

Variable F : Arithmetic.

(** *** Rounded quotients against the threshold *)

(** The rounded quotient lies between [(1 - eps) q] and [(1 + eps) q]. *)
Lemma fl_div_bounds (x s : Z) :
  s <> 0 ->
  let q := (inject_Z x / inject_Z s)%Q in
  ((0 <= q)%Q ->
   ((1 - eps) * q <= fl_div F x s)%Q /\ (fl_div F x s <= (1 + eps) * q)%Q) /\
  ((q <= 0)%Q ->
   ((1 + eps) * q <= fl_div F x s)%Q /\ (fl_div F x s <= (1 - eps) * q)%Q).
Proof.
  intros Hs q. pose proof (fl_div_error F x s Hs) as He. fold q in He.
  apply Qabs_Qle_condition in He. destruct He as [Hlo Hhi].
  split; intros Hq.
  - rewrite (Qabs_pos q Hq) in Hlo, Hhi. unfold eps in *. split; lra.
  - rewrite (Qabs_neg q Hq) in Hlo, Hhi. unfold eps in *. split; lra.
Qed.

(** A kept quotient is positive. *)
Lemma kept_sign (x s : Z) :
  s <> 0 ->
  gt_threshold (np_true_divide F x s) = true ->
  (0 < inject_Z x / inject_Z s)%Q.
Proof.
  intros Hs. unfold np_true_divide.
  destruct (Z.eqb_spec s 0); [contradiction|].
  rewrite gt_threshold_Fin. intros Hk.
  destruct (Qlt_le_dec 0 (inject_Z x / inject_Z s)) as [|Hle]; [assumption|].
  destruct (fl_div_bounds x s Hs) as [_ Hneg]. destruct (Hneg Hle) as [_ Hhi].
  unfold threshold, eps in *. lra.
Qed.

Lemma kept_positive (x s : Z) :
  0 < s -> gt_threshold (np_true_divide F x s) = true -> 0 < x.
Proof.
  intros Hs Hk. apply kept_sign in Hk; [|lia].
  apply (quotient_lt x s 0 1 Hs) in Hk. lia.
Qed.

(** A dropped length is at most [total / (10^10 - 1)], and a kept one is
    more than [total / (10^10 + 1)]. *)
Lemma dropped_small (x s : Z) :
  0 < s -> gt_threshold (np_true_divide F x s) = false ->
  x * 9999999999 <= s.
Proof.
  intros Hs. unfold np_true_divide.
  destruct (Z.eqb_spec s 0); [lia|].
  intros Hd. apply not_true_iff_false in Hd. rewrite gt_threshold_Fin in Hd.
  apply Qnot_lt_le in Hd.
  destruct (Z.le_gt_cases x 0) as [|Hx]; [lia|].
  assert (Hq : (0 <= inject_Z x / inject_Z s)%Q).
  { apply Qlt_le_weak, (quotient_lt x s 0 1 Hs). lia. }
  destruct (fl_div_bounds x s ltac:(lia)) as [Hpos _].
  destruct (Hpos Hq) as [Hlo _].
  assert (Hle : (inject_Z x / inject_Z s <= 1 # 9999999999)%Q)
    by (unfold threshold, eps in *; lra).
  apply (quotient_le x s 1 9999999999 Hs) in Hle. lia.
Qed.

Lemma kept_large (x s : Z) :
  0 < s -> gt_threshold (np_true_divide F x s) = true ->
  s < x * 10000000001.
Proof.
  intros Hs Hk. pose proof (kept_sign x s ltac:(lia) Hk) as Hq.
  unfold np_true_divide in Hk.
  destruct (Z.eqb_spec s 0); [lia|].
  rewrite gt_threshold_Fin in Hk.
  destruct (fl_div_bounds x s ltac:(lia)) as [Hpos _].
  destruct (Hpos (Qlt_le_weak _ _ Hq)) as [_ Hhi].
  assert (Hlt : (1 # 10000000001 < inject_Z x / inject_Z s)%Q)
    by (unfold threshold, eps in *; lra).
  apply (quotient_lt x s 1 10000000001 Hs) in Hlt. lia.
Qed.

Lemma weights_finite (sel : list Z) (s : Z) :
  s <> 0 ->
  map (fun x => np_true_divide F x s) sel =
  map Fin (map (fun x => fl_div F x s) sel).
Proof.
  intros Hs. rewrite map_map. apply map_ext; intros x.
  unfold np_true_divide. now destruct (Z.eqb_spec s 0).
Qed.

Lemma keep_indices_nil (sel : list Z) (s : Z) :
  0 < s ->
  keep_indices sel (map (fun x => np_true_divide F x s) sel) = [] ->
  Forall (fun x => x * 9999999999 <= s) sel.
Proof.
  intros Hs. induction sel as [|x sel IH]; simpl; intros H; [constructor|].
  destruct (gt_threshold (np_true_divide F x s)) eqn:Hx; [discriminate|].
  constructor; [now apply dropped_small | now apply IH].
Qed.

Lemma keep_indices_positive (sel : list Z) (ws : list weight) (s : Z) :
  0 < s ->
  ws = map (fun x => np_true_divide F x s) sel ->
  Forall (fun x => 0 < x) (keep_indices sel ws).
Proof.
  intros Hs ->. induction sel as [|x sel IH]; simpl; [constructor|].
  destruct (gt_threshold (np_true_divide F x s)) eqn:Hx; [|assumption].
  constructor; [now apply (kept_positive x s) | assumption].
Qed.

(** The sum of the rounded quotients of positive exact quotients. *)
Lemma Qsum_fl_bounds (sel : list Z) (s : Z) :
  s <> 0 ->
  Forall (fun x => (0 < inject_Z x / inject_Z s)%Q) sel ->
  ((1 - eps) * Qsum (map (fun x => inject_Z x / inject_Z s) sel)
   <= Qsum (map (fun x => fl_div F x s) sel))%Q /\
  (Qsum (map (fun x => fl_div F x s) sel)
   <= (1 + eps) * Qsum (map (fun x => inject_Z x / inject_Z s) sel))%Q.
Proof.
  intros Hs. induction 1 as [|x sel Hx _ [IHlo IHhi]]; simpl.
  - split; lra.
  - destruct (fl_div_bounds x s Hs) as [Hpos _].
    destruct (Hpos (Qlt_le_weak _ _ Hx)) as [Hlo Hhi].
    split; lra.
Qed.

(** *** The recursion *)

Lemma selector_pass_recurse lens indices keep :
  selector_pass F lens indices = Ok (Recurse keep) ->
  (List.length keep < List.length indices)%nat.
Proof.
  unfold selector_pass.
  destruct (take lens indices) as [sel|]; simpl; [|discriminate].
  match goal with |- context [keep_indices indices ?w] => set (ws := w) end.
  destruct (Z.eqb_spec (len (keep_indices indices ws)) (len indices))
    as [|Hne]; [discriminate|].
  intros H; inversion H; subst.
  pose proof (keep_indices_length_le indices ws). unfold len in Hne. lia.
Qed.

Lemma selector_loop_depth lens (d1 d2 : nat) indices :
  (List.length indices <= d1)%nat -> (List.length indices <= d2)%nat ->
  selector_loop F d1 lens indices = selector_loop F d2 lens indices.
Proof.
  revert d2 indices; induction d1 as [|d1 IH]; intros d2 indices H1 H2.
  - destruct indices; [|simpl in H1; lia]. destruct d2; reflexivity.
  - destruct d2 as [|d2].
    + destruct indices; [|simpl in H2; lia]. reflexivity.
    + simpl.
      destruct (selector_pass F lens indices) as [[i w|keep]|] eqn:Hp;
        simpl; try reflexivity.
      apply selector_pass_recurse in Hp. apply IH; lia.
Qed.

Lemma _get_indices_and_probabilities_eq lens indices :
  _get_indices_and_probabilities F lens indices =
  (p <- selector_pass F lens indices ;;
   match p with
   | Return indices weights => Ok (indices, weights)
   | Recurse keep => _get_indices_and_probabilities F lens keep
   end).
Proof.
  unfold _get_indices_and_probabilities.
  destruct (List.length indices) as [|n] eqn:Hn.
  - destruct indices; [reflexivity | discriminate].
  - simpl.
    destruct (selector_pass F lens indices) as [[i w|keep]|] eqn:Hp;
      simpl; try reflexivity.
    apply selector_pass_recurse in Hp. apply selector_loop_depth; lia.
Qed.

(** What a returning pass returns: its candidates, with weights that
    all passed the test against the threshold. *)
Lemma selector_pass_return lens indices kept ws :
  selector_pass F lens indices = Ok (Return kept ws) ->
  kept = indices /\ List.length kept = List.length ws /\
  Forall (fun w => gt_threshold w = true) ws.
Proof.
  unfold selector_pass.
  destruct (take lens indices) as [sel|] eqn:Ht; cbn [bind]; [|discriminate].
  set (w := map _ sel).
  destruct (Z.eqb_spec (len (keep_indices indices w)) (len indices)) as [He|];
    [|discriminate].
  intros H; inversion H; subst kept ws; clear H. split; [reflexivity|].
  pose proof (take_length _ _ _ Ht) as Hl.
  assert (Hw : List.length w = List.length indices)
    by (unfold w; now rewrite length_map).
  split; [now rewrite Hw|].
  apply (keep_indices_all indices w Hw). unfold len in He; lia.
Qed.

(** Without wrap-around the weights of a returning pass are finite and
    sum to 1 within the rounding error. *)
Lemma selector_pass_return_sum lens indices sel ws :
  take lens indices = Ok sel ->
  no_overflow sel ->
  selector_pass F lens indices = Ok (Return indices ws) ->
  exists qs, ws = map Fin qs /\ Forall (Qlt threshold) qs /\
    (indices <> [] -> (Qabs (Qsum qs - 1) <= eps)%Q).
Proof.
  intros Ht Hfit Hp.
  destruct (selector_pass_return _ _ _ _ Hp) as (_ & _ & Hall).
  unfold selector_pass in Hp. rewrite Ht in Hp; cbn [bind] in Hp.
  rewrite (np_sum_exact sel Hfit) in Hp.
  set (total := Zsum sel) in *.
  destruct (_ =? _) in Hp; [|discriminate].
  inversion Hp; subst ws; clear Hp.
  destruct (Z.eq_dec total 0) as [H0|H0].
  - (* a zero total keeps every candidate only when there is none *)
    assert (sel = []) as ->.
    { destruct sel as [|x sel']; [reflexivity|]. exfalso.
      rewrite H0 in Hall. apply div_zero_kept in Hall.
      apply Zsum_positive in Hall; [|discriminate]. fold total in Hall. lia. }
    apply take_length in Ht. destruct indices; [|discriminate]. exists [].
    repeat split; auto. congruence.
  - exists (map (fun x => fl_div F x total) sel).
    split; [apply weights_finite; assumption|].
    assert (Hpos : Forall (fun x => (0 < inject_Z x / inject_Z total)%Q) sel).
    { rewrite Forall_map in Hall.
      eapply Forall_impl; [|exact Hall].
      intros x Hx. now apply kept_sign. }
    split.
    + rewrite (weights_finite _ _ H0) in Hall.
      rewrite Forall_map in Hall. eapply Forall_impl; [|exact Hall].
      intros q Hq; now apply gt_threshold_Fin.
    + intros _. destruct (Qsum_fl_bounds sel total H0 Hpos) as [Hlo Hhi].
      rewrite Qsum_div in Hlo, Hhi. fold total in Hlo, Hhi.
      assert (Hone : (inject_Z total / inject_Z total == 1)%Q).
      { apply Qmult_inv_r. intros E. apply H0.
        unfold Qeq in E; simpl in E. lia. }
      rewrite Hone in Hlo, Hhi.
      apply (proj2 (Qabs_Qle_condition _ _)). unfold eps in *. split; lra.
Qed.

Lemma selector_loop_returns lens depth indices sel :
  take lens indices = Ok sel ->
  (List.length indices <= depth)%nat ->
  exists kept ws,
    selector_loop F depth lens indices = Ok (kept, ws) /\
    selector_pass F lens kept = Ok (Return kept ws).
Proof.
  revert indices sel; induction depth as [|d IH]; intros indices sel Ht Hd.
  - destruct indices; [|simpl in Hd; lia]. exists [], []. split; reflexivity.
  - simpl.
    destruct (selector_pass F lens indices) as [[i w|keep]|] eqn:Hp; simpl.
    + exists i, w. split; [reflexivity|].
      destruct (selector_pass_return _ _ _ _ Hp) as [-> _]. assumption.
    + pose proof (selector_pass_recurse _ _ _ Hp) as Hlt.
      assert (Hk : exists ws, keep = keep_indices indices ws).
      { unfold selector_pass in Hp. rewrite Ht in Hp; simpl in Hp.
        match type of Hp with context [keep_indices indices ?w] => exists w end.
        destruct (_ =? _); now inversion Hp. }
      destruct Hk as [ws ->].
      apply (IH _ _ (take_keep _ _ _ ws Ht)). lia.
    + unfold selector_pass in Hp. rewrite Ht in Hp; simpl in Hp.
      destruct (_ =? _); discriminate.
Qed.

(** With a positive total and fewer than [10^10 - 1] candidates a pass
    keeps a candidate, and the kept lengths have a positive total again. *)
Lemma selector_pass_positive lens indices sel :
  take lens indices = Ok sel ->
  no_overflow sel ->
  0 < np_sum sel ->
  Z.of_nat (List.length indices) < 9999999999 ->
  (exists ws,
     selector_pass F lens indices = Ok (Return indices ws) /\
     indices <> []) \/
  (exists ws,
     selector_pass F lens indices
     = Ok (Recurse (keep_indices indices ws)) /\
     0 < np_sum (keep_indices sel ws)).
Proof.
  intros Ht Hfit Hs Hn. unfold selector_pass. rewrite Ht; simpl.
  set (w := map _ sel).
  destruct (Z.eqb_spec (len (keep_indices indices w)) (len indices)) as [He|He].
  - left. exists w. split; [reflexivity|].
    intros ->. simpl in Ht. inversion Ht; subst. discriminate Hs.
  - right. exists w. split; [reflexivity|].
    pose proof (take_length _ _ _ Ht) as Hl.
    rewrite np_sum_exact
      by (eapply no_overflow_subseq; [apply keep_indices_subseq | exact Hfit]).
    apply Zsum_positive.
    + apply (keep_indices_positive sel w (np_sum sel) Hs eq_refl).
    + intros Hnil. apply (keep_indices_nil sel (np_sum sel) Hs) in Hnil.
      apply sum_below in Hnil. rewrite np_sum_exact in * by assumption. nia.
Qed.

Lemma selector_loop_sum lens depth indices sel kept ws :
  take lens indices = Ok sel ->
  no_overflow sel ->
  0 < np_sum sel ->
  Z.of_nat (List.length indices) < 9999999999 ->
  selector_loop F depth lens indices = Ok (kept, ws) ->
  kept <> [] /\
  exists qs, ws = map Fin qs /\ Forall (Qlt threshold) qs /\
    (Qabs (Qsum qs - 1) <= eps)%Q.
Proof.
  revert indices sel; induction depth as [|d IH];
    intros indices sel Ht Hfit Hs Hn;
    destruct (selector_pass_positive lens indices sel Ht Hfit Hs Hn)
      as [(w & Hp & Hne) | (w & Hp & Hpos)];
    simpl; rewrite Hp; simpl; intros H; try discriminate;
    try (inversion H; subst; split; [assumption|];
         destruct (selector_pass_return_sum _ _ _ _ Ht Hfit Hp)
           as (qs & Hqs & Hthr & Hsum);
         exists qs; auto).
  revert H. apply (IH _ _ (take_keep _ _ _ w Ht)); [|exact Hpos|].
  - eapply no_overflow_subseq; [apply keep_indices_subseq | exact Hfit].
  - pose proof (keep_indices_length_le indices w). lia.
Qed.

(** C1 (amended): for every candidate list with a positive total selected
    length the selector returns kept indices and weights of equal length,
    every weight passes the test [weight > 1e-10], and running the selector
    again on the kept indices returns the same indices and weights.  When
    the candidate list has fewer than [10^10 - 1] entries and the selected
    lengths are summed without wrap-around, the weights are finite and sum
    to 1 within [1e-9]. *)
Theorem selector_output lens indices sel :
  take lens indices = Ok sel ->
  0 < np_sum sel ->
  exists kept ws,
    _get_indices_and_probabilities F lens indices = Ok (kept, ws) /\
    List.length kept = List.length ws /\
    Forall (fun w => gt_threshold w = true) ws /\
    _get_indices_and_probabilities F lens kept = Ok (kept, ws) /\
    (Z.of_nat (List.length indices) < 9999999999 ->
     no_overflow sel ->
     exists qs, ws = map Fin qs /\ Forall (Qlt threshold) qs /\
       (Qabs (Qsum qs - 1) <= 1 # 1000000000)%Q).
Proof.
  intros Ht Hs.
  destruct (selector_loop_returns lens (List.length indices) indices sel Ht
              (le_n _)) as (kept & ws & Hloop & Hpass).
  destruct (selector_pass_return _ _ _ _ Hpass) as (_ & Hlen & Hthr).
  exists kept, ws. repeat split; try assumption.
  - rewrite _get_indices_and_probabilities_eq, Hpass. reflexivity.
  - intros Hn Hfit.
    destruct (selector_loop_sum _ _ _ _ _ _ Ht Hfit Hs Hn Hloop)
      as (_ & qs & Hqs & Hq & Hsum).
    exists qs. repeat split; try assumption.
    eapply Qle_trans; [exact Hsum | discriminate].
Qed.

Lemma take_repeat_seq (v : Z) (n m k : nat) :
  (k + m <= n)%nat ->
  take (repeat v n) (map Z.of_nat (seq k m)) = Ok (repeat v m).
Proof.
  revert k; induction m as [|m IH]; intros k Hk; [reflexivity|].
  simpl. unfold getitem, len. rewrite repeat_length.
  destruct (Z.ltb_spec (Z.of_nat k) 0); [lia|].
  destruct (Z.leb_spec 0 (Z.of_nat k)); [|lia].
  destruct (Z.ltb_spec (Z.of_nat k) (Z.of_nat n)); [|lia].
  simpl. rewrite Nat2Z.id, nth_error_repeat by lia. simpl.
  rewrite IH by lia. reflexivity.
Qed.

Lemma Zsum_repeat_1 (n : nat) : Zsum (repeat 1 n) = Z.of_nat n.
Proof.
  induction n as [|n IH]; [reflexivity|].
  change (Zsum (repeat 1 (S n))) with (1 + Zsum (repeat 1 n)). lia.
Qed.

Lemma np_sum_repeat_1 (n : nat) :
  Z.of_nat n < 9223372036854775808 -> np_sum (repeat 1 n) = Z.of_nat n.
Proof.
  intros Hn. unfold np_sum. rewrite Zsum_repeat_1. apply int64_exact. lia.
Qed.

Lemma keep_indices_none {A} (l : list A) (w : weight) (n : nat) :
  gt_threshold w = false -> keep_indices l (repeat w n) = [].
Proof.
  intros Hw. revert n; induction l as [|i l IH]; intros [|n]; simpl; auto.
  rewrite Hw. apply IH.
Qed.

(** More than [10^10] intervals of one length: every weight is dropped, and
    the recursive call on the empty list returns nothing. *)
Lemma selector_prunes_equal_lengths (n : nat) :
  10000000001 <= Z.of_nat n < 9223372036854775808 ->
  _get_indices_and_probabilities F (repeat 1 n) (map Z.of_nat (seq 0 n))
  = Ok ([], []).
Proof.
  intros Hn. rewrite _get_indices_and_probabilities_eq.
  unfold selector_pass. rewrite take_repeat_seq by lia. simpl bind.
  rewrite np_sum_repeat_1 by lia. rewrite map_repeat, keep_indices_none.
  - unfold len. rewrite length_map, length_seq. simpl List.length.
    destruct (Z.eqb_spec (Z.of_nat 0) (Z.of_nat n)); [lia|]. reflexivity.
  - apply not_true_iff_false. intros Hk.
    apply kept_large in Hk; lia.
Qed.

(** C8: on the empty candidate list the first activation returns at once,
    with no index and no weight; the zero total raises nothing. *)
Theorem selector_empty (interval_lengths : list Z) :
  take interval_lengths [] = Ok [] /\
  np_sum [] = 0 /\
  selector_pass F interval_lengths [] = Ok (Return [] []) /\
  _get_indices_and_probabilities F interval_lengths [] = Ok ([], []).
Proof. repeat split. Qed.

(** *** The selector on in-range indices *)

Lemma selector_pass_keep lens indices keep :
  selector_pass F lens indices = Ok (Recurse keep) ->
  exists ws, keep = keep_indices indices ws.
Proof.
  unfold selector_pass. destruct (take lens indices); simpl; [|discriminate].
  destruct (_ =? _); intros H; inversion H. eauto.
Qed.

Lemma selector_loop_subseq lens depth indices kept ws :
  selector_loop F depth lens indices = Ok (kept, ws) -> subseq kept indices.
Proof.
  revert indices; induction depth as [|d IH]; intros indices; simpl;
    destruct (selector_pass F lens indices) as [[i w|keep]|] eqn:Hp; simpl;
    try discriminate;
    try (intros H; inversion H; subst;
         destruct (selector_pass_return _ _ _ _ Hp) as [-> _];
         apply subseq_refl).
  intros H. apply IH in H.
  destruct (selector_pass_keep _ _ _ Hp) as [w ->].
  eapply subseq_trans; [exact H | apply keep_indices_subseq].
Qed.


(** With a positive total and every selected length above
    [total / (10^10 - 1)], the first activation keeps every candidate. *)
Lemma selector_keeps_candidates (interval_lengths indices sel : list Z) :
  take interval_lengths indices = Ok sel ->
  0 < np_sum sel ->
  Forall (fun x => np_sum sel < x * 9999999999) sel ->
  _get_indices_and_probabilities F interval_lengths indices
  = Ok (indices, map (fun x => Fin (fl_div F x (np_sum sel))) sel).
Proof.
  intros Ht Hs Hbig.
  rewrite _get_indices_and_probabilities_eq. unfold selector_pass.
  rewrite Ht. cbn [bind].
  set (ws := map (fun x => np_true_divide F x (np_sum sel)) sel).
  assert (Hall : Forall (fun w => gt_threshold w = true) ws).
  { unfold ws. rewrite Forall_map. eapply Forall_impl; [|exact Hbig].
    intros x Hx. cbv beta in *.
    destruct (gt_threshold (np_true_divide F x (np_sum sel))) eqn:Hd;
      [reflexivity|].
    apply (dropped_small x (np_sum sel) Hs) in Hd. lia. }
  rewrite keep_indices_kept; [|unfold ws; rewrite length_map;
                               exact (take_length _ _ _ Ht) | exact Hall].
  rewrite Z.eqb_refl. cbn [bind]. unfold ws.
  rewrite (weights_finite sel (np_sum sel)) by lia.
  now rewrite map_map.
Qed.

End Selector.

(** C1 (counterexample): [2 * 10^10] intervals of length 1, all of them
    candidates, in exact arithmetic.  The total is positive and far from
    wrapping around, every weight is [5e-11], the first pass keeps nothing
    and the recursive call on the empty list returns no index and no
    weight: the weights sum to 0. *)
Lemma selector_scale_counterexample :
  let n := N.to_nat 20000000000 in
  let lens := repeat 1 n in
  let indices := map Z.of_nat (seq 0 n) in
  take lens indices = Ok lens /\
  no_overflow lens /\
  0 < np_sum lens /\
  _get_indices_and_probabilities exact_arithmetic lens indices
  = Ok ([], map Fin []) /\
  ~ (Qabs (Qsum [] - 1) <= 1 # 1000000000)%Q.
Proof.
  intros n lens indices.
  assert (Hn : Z.of_nat n = 20000000000) by (unfold n; now rewrite N_nat_Z).
  split; [apply take_repeat_seq; lia|].
  split.
  { unfold no_overflow, lens. rewrite map_repeat. simpl Z.abs.
    rewrite Zsum_repeat_1. lia. }
  split; [unfold lens; rewrite np_sum_repeat_1; lia|].
  split; [apply selector_prunes_equal_lengths; lia|].
  intros H; apply H; reflexivity.
Qed.

(** Four intervals of length [2 ** 62] and one of length 5: the int64 sum
    wraps around to 5, every weight passes the test and the weights sum to
    far more than 1. *)
Example selector_wrap_around :
  let big := 4611686018427387904 in
  np_sum [big; big; big; big; 5] = 5 /\
  _get_indices_and_probabilities exact_arithmetic [big; big; big; big; 5]
    [0; 1; 2; 3; 4]
  = Ok ([0; 1; 2; 3; 4],
        map Fin [big # 5; big # 5; big # 5; big # 5; 5 # 5]).
Proof. split; reflexivity. Qed.

Lemma selector_output_witness :
  exists kept ws,
    _get_indices_and_probabilities exact_arithmetic [10; 0; 90] [0; 1; 2]
    = Ok (kept, ws) /\
    List.length kept = List.length ws /\
    Forall (fun w => gt_threshold w = true) ws /\
    _get_indices_and_probabilities exact_arithmetic [10; 0; 90] kept
    = Ok (kept, ws) /\
    exists qs, ws = map Fin qs /\ Forall (Qlt threshold) qs /\
      (Qabs (Qsum qs - 1) <= 1 # 1000000000)%Q.
Proof.
  destruct (selector_output exact_arithmetic [10; 0; 90] [0; 1; 2]
              [10; 0; 90] eq_refl eq_refl)
    as (kept & ws & Hget & Hlen & Hthr & Hfix & Hsum).
  exists kept, ws. repeat split; try assumption.
  apply Hsum; [reflexivity | reflexivity].
Defined.

Lemma take_In (a indices drawn : list Z) :
  take a indices = Ok drawn -> Forall (fun x => In x a) drawn.
Proof.
  revert drawn; induction indices as [|i rest IH]; simpl; intros drawn H.
  - inversion H; constructor.
  - destruct (getitem a i) as [x|] eqn:Hx; simpl in H; [|discriminate].
    destruct (take a rest) as [xs|]; simpl in H; [|discriminate].
    inversion H; subst. constructor; [eapply getitem_In; eauto | auto].
Qed.

(** ** Sums of selected lengths *)

Lemma Zsum_app (a b : list Z) : Zsum (a ++ b) = Zsum a + Zsum b.
Proof. induction a as [|x a IH]; simpl; lia. Qed.








(** ** The proportional partition *)

Section Partition.

Variable F : Arithmetic.
Variable R : RandomState.

(** The sampler as [__init__] leaves it before it partitions: no interval
    read and no index stored. *)
Definition fresh (s : sampler R) : Prop :=
  sample_from_intervals s = [] /\
  interval_lengths s = [] /\
  forall m, stored_indices s m = [].

Lemma read_intervals_proportion_frame lines (s s1 : sampler R) :
  read_intervals_proportion R lines s = Ok s1 ->
  modes s1 = modes s /\
  validation_holdout s1 = validation_holdout s /\
  test_holdout s1 = test_holdout s /\
  _sample_from_mode s1 = _sample_from_mode s /\
  random_state s1 = random_state s /\
  List.length (sample_from_intervals s1)
  = (List.length (sample_from_intervals s) + List.length lines)%nat /\
  List.length (interval_lengths s1)
  = (List.length (interval_lengths s) + List.length lines)%nat.
Proof.
  revert s; induction lines as [|line lines IH]; intros s; simpl.
  - intros H; inversion H; subst. repeat split; lia.
  - destruct (read_interval line) as [[[chrom start] end_]|]; simpl;
      [|discriminate].
    intros H. apply IH in H. simpl in H.
    rewrite !length_app in H. simpl in H.
    destruct H as (? & ? & ? & ? & ? & ? & ?). repeat split; auto; lia.
Qed.








End Partition.

(** ** The weighted draw *)

Lemma cumsum_length acc p : List.length (cumsum acc p) = List.length p.
Proof. revert acc; induction p; simpl; intros; [|rewrite IHp]; reflexivity. Qed.

Lemma cumsum_last acc x p :
  (last (cumsum acc (x :: p)) 0 == acc + Qsum (x :: p))%Q.
Proof.
  revert acc x; induction p as [|y p IH]; intros acc x.
  - simpl. ring.
  - change (cumsum acc (x :: y :: p))
      with ((acc + x)%Q :: cumsum (acc + x)%Q (y :: p)).
    change (last ((acc + x)%Q :: cumsum (acc + x)%Q (y :: p)) 0%Q)
      with (last (cumsum (acc + x)%Q (y :: p)) 0%Q).
    rewrite IH. simpl. ring.
Qed.

(** With a positive last entry, the normalised distribution ends in 1, so
    a sample below 1 is searched to a position inside the array. *)
Lemma searchsorted_right_bound (cdf : list Q) (u : Q) :
  cdf <> [] -> (0 < last cdf 0)%Q -> (u < 1)%Q ->
  0 <= searchsorted_right (map (fun c => c / last cdf 0)%Q cdf) u
  < len cdf.
Proof.
  intros Hne Hpos Hu. unfold searchsorted_right, len. split; [lia|].
  rewrite <- (length_map (fun c => (c / last cdf 0)%Q) cdf).
  apply inj_lt.
  apply filter_length_lt with (x := (last cdf 0 / last cdf 0)%Q).
  - apply (in_map (fun c => (c / last cdf 0)%Q)), last_In, Hne.
  - apply not_true_iff_false. rewrite Qle_bool_iff.
    intros Hle. apply (Qlt_not_le _ _ Hu).
    eapply Qle_trans; [|exact Hle].
    unfold Qdiv. rewrite Qmult_inv_r; [apply Qle_refl|].
    intros E. rewrite E in Hpos. discriminate.
Qed.

Lemma finite_all_Fin (qs : list Q) : finite_all (map Fin qs) = Some qs.
Proof. induction qs; simpl; [|rewrite IHqs]; reflexivity. Qed.

Lemma finite_all_Some (p : list weight) (qs : list Q) :
  finite_all p = Some qs -> p = map Fin qs.
Proof.
  revert qs; induction p as [|w p IH]; simpl; intros qs H.
  - now inversion H.
  - destruct w; try discriminate.
    destruct (finite_all p) as [qs'|]; [|discriminate].
    inversion H; subst. simpl. now rewrite (IH qs').
Qed.

(** A weight vector that [np.random.choice] accepts for [n] entries. *)
Definition valid_weights (n : nat) (ws : list weight) : Prop :=
  exists qs, ws = map Fin qs /\ List.length qs = n /\
             Forall (Qle 0) qs /\ (Qabs (Qsum qs - 1) <= atol)%Q.

(** What the selector returns for a mode that keeps an index is a weight
    vector [np.random.choice] accepts, when the kept lengths are summed
    without wrap-around. *)
Lemma selector_weights_valid (F : Arithmetic) (lens indices kept sel : list Z)
  (ws : list weight) :
  _get_indices_and_probabilities F lens indices = Ok (kept, ws) ->
  take lens kept = Ok sel ->
  no_overflow sel ->
  kept <> [] ->
  valid_weights (List.length kept) ws.
Proof.
  intros Hget Hk Hfit Hne.
  assert (Ht : exists sel0, take lens indices = Ok sel0).
  { rewrite _get_indices_and_probabilities_eq in Hget.
    unfold selector_pass in Hget.
    destruct (take lens indices) as [sel0|]; [eauto | discriminate]. }
  destruct Ht as [sel0 Ht].
  destruct (selector_loop_returns F lens (List.length indices) indices sel0 Ht
              (le_n _)) as (kept' & ws' & Hloop & Hpass).
  unfold _get_indices_and_probabilities in Hget.
  rewrite Hget in Hloop. inversion Hloop; subst kept' ws'.
  destruct (selector_pass_return F _ _ _ _ Hpass) as (_ & Hlen & _).
  destruct (selector_pass_return_sum F _ _ _ _ Hk Hfit Hpass)
    as (qs & -> & Hthr & Hsum).
  exists qs. rewrite length_map in Hlen. repeat split; auto.
  - eapply Forall_impl; [|exact Hthr].
    intros q Hq. apply Qlt_le_weak. eapply Qlt_trans; [|exact Hq]. reflexivity.
  - eapply Qle_trans; [exact (Hsum Hne) | discriminate].
Qed.

Section Cache.

Variable F : Arithmetic.
Variable R : RandomState.

Lemma random_samples_spec (n : nat) (g : rng R) :
  List.length (fst (random_samples R n g)) = n /\
  Forall (fun u => (u < 1)%Q) (fst (random_samples R n g)).
Proof.
  revert g; induction n as [|n IH]; intros g; simpl; [split; constructor|].
  pose proof (random_sample_range R g) as [_ Hu].
  destruct (random_sample R g) as [u g1]. simpl in Hu.
  specialize (IH g1). destruct (random_samples R n g1) as [us g2].
  simpl in *. destruct IH. split; [lia | constructor; assumption].
Qed.

Lemma np_random_choice_ok (a : list Z) (size : Z) (p : list weight)
  (g : rng R) :
  a <> [] -> 0 <= size -> valid_weights (List.length a) p ->
  exists drawn g',
    np_random_choice R a size p g = Ok (drawn, g') /\
    List.length drawn = Z.to_nat size /\
    Forall (fun x => In x a) drawn.
Proof.
  intros Ha Hsize (qs & -> & Hlen & Hnn & Hsum).
  unfold np_random_choice.
  assert (Hla : (len a =? 0) = false).
  { apply Z.eqb_neq. destruct a; [congruence|]. unfold len; simpl; lia. }
  rewrite Hla. cbn [andb negb].
  assert (Hlp : (len (map Fin qs) =? len a) = true).
  { apply Z.eqb_eq. unfold len. now rewrite length_map, Hlen. }
  rewrite Hlp. cbn [andb negb].
  rewrite finite_all_Fin.
  assert (Hneg : existsb (fun q => negb (Qle_bool 0 q)) qs = false).
  { apply not_true_iff_false. rewrite existsb_exists. intros (q & Hq & Hb).
    rewrite Forall_forall in Hnn. apply Hnn in Hq.
    apply Qle_bool_iff in Hq. rewrite Hq in Hb. discriminate. }
  rewrite Hneg.
  apply Qle_bool_iff in Hsum. rewrite Hsum. cbn [andb negb].
  destruct (Z.ltb_spec size 0); [lia|].
  apply Qle_bool_iff in Hsum.
  set (cdf := cumsum 0 qs).
  assert (Hcdf : cdf <> []).
  { intros E. apply (f_equal (@List.length Q)) in E. unfold cdf in E.
    rewrite cumsum_length, Hlen in E.
    destruct a; [now apply Ha | discriminate E]. }
  assert (Hpos : (0 < last cdf 0)%Q).
  { unfold cdf. destruct qs as [|x qs]; [exfalso; apply Hcdf; reflexivity|].
    rewrite cumsum_last, Qplus_0_l.
    apply Qabs_Qle_condition in Hsum. destruct Hsum as [Hlo _].
    unfold atol in Hlo. lra. }
  pose proof (random_samples_spec (Z.to_nat size) g) as [Hul Hur].
  destruct (random_samples R (Z.to_nat size) g) as [us g']. simpl in Hul, Hur.
  set (idx := map _ us).
  assert (Hidx : Forall (in_range (len a)) idx).
  { unfold idx. rewrite Forall_map. eapply Forall_impl; [|exact Hur].
    intros u Hu. unfold in_range.
    replace (len a) with (len cdf)
      by (unfold len, cdf; now rewrite cumsum_length, Hlen).
    apply searchsorted_right_bound; assumption. }
  destruct (take_in_range a idx Hidx) as [drawn Hd].
  rewrite Hd. cbn [bind]. exists drawn, g'. split; [reflexivity|].
  split; [|eapply take_In; eauto].
  rewrite (take_length _ _ _ Hd). unfold idx. now rewrite length_map.
Qed.

(** ** Refill and reads *)

Lemma sample_indices_of_stored (s : sampler R) m si :
  _sample_from_mode s m = Some (Some si) -> sample_indices_of s m = Ok si.
Proof. unfold sample_indices_of, dict_get. now intros ->. Qed.

Lemma mode_eqb_refl m : mode_eqb m m = true.
Proof. now destruct m. Qed.

(** Reading [k] indices from a cache that still holds at least [k] unread
    ones returns those, in order, without a refill. *)
Lemma read_indices_from_cache (k : nat) :
  forall (s : sampler R) si e pre post,
    _sample_from_mode s (current_mode s) = Some (Some si) ->
    _randcache s (current_mode s) = Some e ->
    cache_indices e = Some (pre ++ post)%list ->
    sample_next e = len pre ->
    List.length (pre ++ post)%list = List.length (indices si) ->
    (k <= List.length post)%nat ->
    exists s', read_indices R k s = Ok (firstn k post, s').
Proof.
  induction k as [|k IH]; intros s si e pre post Hsi He Hc Hn Hl Hk.
  - exists s. reflexivity.
  - destruct post as [|x post]; [simpl in Hk; lia|].
    simpl read_indices. unfold next_index.
    unfold dict_get at 1. rewrite He. cbn [bind].
    rewrite (sample_indices_of_stored _ _ _ Hsi). cbn [bind].
    rewrite Hn.
    destruct (Z.eqb_spec (len pre) (len (indices si))) as [E|_].
    { unfold len in E. rewrite length_app in Hl. simpl in Hl. lia. }
    cbn [bind]. unfold dict_get. rewrite He. cbn [bind].
    rewrite Hc. cbn [bind]. rewrite getitem_app_middle. cbn [bind].
    set (s1 := set_randcache R s _).
    destruct (IH s1 si (mkCacheEntry (cache e) (cache_indices e) (len pre + 1))
                (pre ++ [x])%list post) as [s' Hs'].
    + exact Hsi.
    + unfold s1; simpl. unfold dict_set. rewrite mode_eqb_refl.
      now rewrite Hn, Hc.
    + simpl. now rewrite Hc, <- app_assoc.
    + simpl. unfold len. rewrite length_app. simpl. lia.
    + now rewrite <- app_assoc.
    + simpl in Hk. lia.
    + rewrite Hs'. cbn [bind]. eexists. reflexivity.
Qed.

(** C6: with [N >= 1] indices and a weight vector that
    [np.random.choice] accepts, a refill of the current mode raises
    nothing, sets the cursor to 0 and fills the cache with [N] indices of the
    mode's index list; the next [N] reads raise nothing and return exactly
    those indices. *)
Theorem refill_then_reads (s : sampler R) (si : SampleIndices)
  (entry : cache_entry) :
  _sample_from_mode s (current_mode s) = Some (Some si) ->
  _randcache s (current_mode s) = Some entry ->
  (1 <= List.length (indices si))%nat ->
  valid_weights (List.length (indices si)) (weights si) ->
  exists s1 drawn s2,
    _update_randcache R (Some (current_mode s)) s = Ok s1 /\
    _randcache s1 (current_mode s)
    = Some (mkCacheEntry (cache entry) (Some drawn) 0) /\
    List.length drawn = List.length (indices si) /\
    Forall (fun i => In i (indices si)) drawn /\
    read_indices R (List.length (indices si)) s1 = Ok (drawn, s2).
Proof.
  intros Hsi He HN Hw.
  assert (Hne : indices si <> [])
    by (destruct (indices si); [simpl in HN; lia | discriminate]).
  destruct (np_random_choice_ok (indices si) (len (indices si)) (weights si)
              (random_state s) Hne ltac:(unfold len; lia) Hw)
    as (drawn & g & Hch & Hld & Hin).
  unfold len in Hld. rewrite Nat2Z.id in Hld.
  unfold _update_randcache.
  rewrite (sample_indices_of_stored _ _ _ Hsi). cbn [bind].
  rewrite Hch. cbn [bind].
  unfold dict_get.
  change (_randcache (set_random_state R s g)) with (_randcache s).
  rewrite He. cbn [bind].
  set (s1 := set_randcache R _ _).
  assert (He1 : _randcache s1 (current_mode s)
                = Some (mkCacheEntry (cache entry) (Some drawn) 0)).
  { unfold s1; simpl. unfold dict_set. now rewrite mode_eqb_refl. }
  destruct (read_indices_from_cache (List.length (indices si)) s1 si
              (mkCacheEntry (cache entry) (Some drawn) 0) [] drawn)
    as [s2 Hs2]; try reflexivity; try assumption; try lia.
  rewrite <- Hld, firstn_all in Hs2.
  exists s1, drawn, s2. rewrite <- Hld at 2. repeat split; assumption.
Qed.

(** ** Construction on an empty partition *)

(** The checks of [np.random.choice]: a draw that raises nothing was given
    a population that is not empty and a weight vector that is valid for
    it. *)
Lemma np_random_choice_checks (a : list Z) (p : list weight) (g : rng R) r :
  np_random_choice R a (len a) p g = Ok r ->
  a <> [] /\ valid_weights (List.length a) p.
Proof.
  unfold np_random_choice. intros H.
  destruct ((len a =? 0) && negb (len a =? 0)); [discriminate|].
  destruct (Z.eqb_spec (len p) (len a)) as [Hlen|]; [|discriminate].
  cbn [negb] in H.
  destruct (finite_all p) as [qs|] eqn:Hfin; [|discriminate].
  apply finite_all_Some in Hfin. subst p.
  destruct (existsb _ qs) eqn:Hneg; [discriminate|].
  destruct (Qle_bool (Qabs (Qsum qs - 1)) atol) eqn:Hsum; [|discriminate].
  clear H.
  assert (Hv : valid_weights (List.length a) (map Fin qs)).
  { exists qs. unfold len in Hlen. rewrite length_map in Hlen.
    repeat split; [lia | | now apply Qle_bool_iff].
    apply Forall_forall. intros q Hq.
    apply Qle_bool_iff. destruct (Qle_bool 0 q) eqn:Hb; [reflexivity|].
    assert (existsb (fun q => negb (Qle_bool 0 q)) qs = true)
      by (apply existsb_exists; exists q; now rewrite Hb).
    congruence. }
  split; [|exact Hv].
  intros ->. destruct Hv as (qs' & Hqs & Hl & _ & Hs).
  destruct qs'; [|discriminate]. revert Hs. unfold atol. simpl.
  intros Hs. apply Qle_bool_iff in Hs. discriminate.
Qed.

(** A refill that raises nothing was run on a mode with an index list that
    is not empty, valid weights and a cache entry: the conditions under
    which the reads after it raise nothing either. *)
Lemma update_randcache_checks (s s' : sampler R) (m : mode) :
  _update_randcache R (Some m) s = Ok s' ->
  exists si entry,
    _sample_from_mode s m = Some (Some si) /\
    _randcache s m = Some entry /\
    (1 <= List.length (indices si))%nat /\
    valid_weights (List.length (indices si)) (weights si).
Proof.
  unfold _update_randcache, sample_indices_of, dict_get.
  destruct (_sample_from_mode s m) as [[si|]|]; cbn [bind]; try discriminate.
  destruct (np_random_choice R _ _ _ _) as [[drawn g]|] eqn:Hch; cbn [bind];
    [|discriminate].
  change (_randcache (set_random_state R s g)) with (_randcache s).
  destruct (_randcache s m) as [entry|]; cbn [bind]; [|discriminate].
  intros _. apply np_random_choice_checks in Hch. destruct Hch as [Hne Hv].
  exists si, entry. repeat split; auto.
  destruct (indices si); [congruence | simpl; lia].
Qed.

Lemma np_random_choice_empty (p : list weight) (g : rng R) :
  np_random_choice R [] (len (@nil Z)) p g = Raise ValueError.
Proof.
  unfold np_random_choice. simpl.
  destruct p as [|w p]; [reflexivity|].
  unfold len; simpl List.length.
  destruct (Z.eqb_spec (Z.of_nat (S (List.length p))) (Z.of_nat 0)); [lia|].
  reflexivity.
Qed.

Lemma update_randcache_empty (s : sampler R) (m : mode) :
  stored_indices s m = [] ->
  exists e, _update_randcache R (Some m) s = Raise e.
Proof.
  unfold stored_indices, _update_randcache, sample_indices_of, dict_get.
  destruct (_sample_from_mode s m) as [[si|]|]; cbn [bind]; eauto.
  intros ->. rewrite np_random_choice_empty. cbn [bind]. eauto.
Qed.

Lemma update_randcache_frame (s s' : sampler R) (m : option mode) :
  _update_randcache R m s = Ok s' ->
  _sample_from_mode s' = _sample_from_mode s /\ modes s' = modes s.
Proof.
  unfold _update_randcache.
  destruct (sample_indices_of s _); cbn [bind]; [|discriminate].
  destruct (np_random_choice R _ _ _ _) as [[drawn g]|]; cbn [bind];
    [|discriminate].
  destruct (dict_get _ _); cbn [bind]; [|discriminate].
  intros H; inversion H; subst. split; reflexivity.
Qed.

Lemma refill_loop_raises (ms : list mode) (s : sampler R) (m : mode) :
  In m ms -> stored_indices s m = [] ->
  exists e,
    for_modes R (fun m s => _update_randcache R (Some m) s) ms s = Raise e.
Proof.
  revert s; induction ms as [|m0 ms IH]; intros s Hin Hm; [contradiction|].
  simpl. destruct (_update_randcache R (Some m0) s) as [s'|e] eqn:Hu;
    cbn [bind]; [|eauto].
  destruct Hin as [->|Hin].
  - destruct (update_randcache_empty s m Hm) as [e He]. congruence.
  - apply IH; [assumption|].
    destruct (update_randcache_frame _ _ _ Hu) as [Hsfm _].
    unfold stored_indices in *. now rewrite Hsfm.
Qed.

(** A refill removes no cache entry. *)
Lemma update_randcache_entries (s s' : sampler R) (m : option mode)
  (m' : mode) :
  _update_randcache R m s = Ok s' ->
  _randcache s m' <> None -> _randcache s' m' <> None.
Proof.
  unfold _update_randcache.
  destruct (sample_indices_of s _); cbn [bind]; [|discriminate].
  destruct (np_random_choice R _ _ _ _) as [[drawn g]|]; cbn [bind];
    [|discriminate].
  destruct (dict_get _ _); cbn [bind]; [|discriminate].
  intros H; inversion H; subst. simpl. unfold dict_set.
  destruct (mode_eqb m' _); [discriminate | trivial].
Qed.

Lemma refill_loop_frame (ms : list mode) (s s' : sampler R) :
  for_modes R (fun m s => _update_randcache R (Some m) s) ms s = Ok s' ->
  _sample_from_mode s' = _sample_from_mode s /\
  forall m, _randcache s m <> None -> _randcache s' m <> None.
Proof.
  revert s; induction ms as [|m0 ms IH]; intros s; simpl.
  - intros H; inversion H; auto.
  - destruct (_update_randcache R (Some m0) s) as [s1|] eqn:Hu; cbn [bind];
      [|discriminate].
    intros H. destruct (IH _ H) as [Hsfm Hentries].
    destruct (update_randcache_frame _ _ _ Hu) as [Hsfm1 _].
    split; [congruence|].
    intros m Hm. apply Hentries. exact (update_randcache_entries _ _ _ _ Hu Hm).
Qed.

Lemma refill_loop_checks (ms : list mode) (s s' : sampler R) (m : mode) :
  for_modes R (fun m s => _update_randcache R (Some m) s) ms s = Ok s' ->
  In m ms ->
  exists si,
    _sample_from_mode s' m = Some (Some si) /\
    _randcache s' m <> None /\
    (1 <= List.length (indices si))%nat /\
    valid_weights (List.length (indices si)) (weights si).
Proof.
  revert s; induction ms as [|m0 ms IH]; intros s; simpl; [contradiction|].
  destruct (_update_randcache R (Some m0) s) as [s1|] eqn:Hu; cbn [bind];
    [|discriminate].
  intros H [->|Hin]; [|exact (IH _ H Hin)].
  destruct (update_randcache_checks _ _ _ Hu) as (si & entry & Hsi & He & Hv).
  destruct (update_randcache_frame _ _ _ Hu) as [Hsfm1 _].
  destruct (refill_loop_frame _ _ _ H) as [Hsfm Hentries].
  exists si. split; [congruence|]. split; [|exact Hv].
  apply Hentries. apply (update_randcache_entries _ _ _ _ Hu). congruence.
Qed.

(** The modes of the sampler are those [OnlineSampler.__init__] set:
    neither the first loop nor the partition changes them. *)
Lemma new_sampler_modes ms ht validation test (g : rng R) :
  modes (new_sampler R ms ht validation test g) = ms.
Proof.
  unfold new_sampler.
  apply (fold_left_invariant (fun s : sampler R => modes s = ms)); auto.
Qed.

Lemma new_sampler_fresh ms ht validation test (g : rng R) :
  fresh R (new_sampler R ms ht validation test g).
Proof.
  pose (P := fun s : sampler R =>
               sample_from_intervals s = [] /\ interval_lengths s = [] /\
               forall m, _sample_from_mode s m = None
                         \/ _sample_from_mode s m = Some None).
  assert (H : P (new_sampler R ms ht validation test g)).
  { unfold new_sampler. apply fold_left_invariant.
    - intros s m (H1 & H2 & H3). repeat split; auto.
      intros m'. simpl. unfold dict_set.
      destruct (mode_eqb m' m); auto.
    - repeat split; auto. }
  destruct H as (H1 & H2 & H3). repeat split; auto.
  intros m. unfold stored_indices. destruct (H3 m) as [-> | ->]; reflexivity.
Qed.

Lemma for_modes_modes body (ms : list mode) :
  (forall m (s s' : sampler R), body m s = Ok s' -> modes s' = modes s) ->
  forall s s', for_modes R body ms s = Ok s' -> modes s' = modes s.
Proof.
  intros Hb; induction ms as [|m ms IH]; intros s s'; simpl.
  - intros H; now inversion H.
  - destruct (body m s) as [s1|] eqn:H1; cbn [bind]; [|discriminate].
    intros H. rewrite (IH _ _ H). eauto.
Qed.

Lemma append_index_modes (s s' : sampler R) m i :
  append_index R s m i = Ok s' -> modes s' = modes s.
Proof.
  unfold append_index. destruct (sample_indices_of s m); cbn [bind];
    intros H; inversion H; reflexivity.
Qed.

Lemma read_intervals_chromosome_modes lines :
  forall i (s s' : sampler R),
    read_intervals_chromosome R lines i s = Ok s' -> modes s' = modes s.
Proof.
  induction lines as [|line lines IH]; intros i s s'; simpl.
  - intros H; now inversion H.
  - destruct (read_interval line) as [[[chrom start] end_]|]; cbn [bind];
      [|discriminate].
    destruct (holdout_contains _ _) as [in_validation|]; cbn [bind];
      [|discriminate].
    match goal with |- bind ?c _ = _ -> _ => destruct c as [s1|] eqn:H1 end;
      cbn [bind]; [|discriminate].
    intros H. rewrite (IH _ _ _ H). simpl.
    destruct in_validation; [eapply append_index_modes; eauto|].
    destruct (truthy _); [|eapply append_index_modes; eauto].
    destruct (match test_holdout s with Some h => _ | None => _ end)
      as [[|]|]; cbn [bind] in H1;
      try discriminate; eapply append_index_modes; eauto.
Qed.

Lemma partition_dataset_modes intervals_file (s s' : sampler R) :
  partition_dataset F R intervals_file s = Ok s' -> modes s' = modes s.
Proof.
  unfold partition_dataset. destruct (_holdout_type s).
  - unfold _partition_dataset_chromosome.
    match goal with |- bind ?c _ = _ -> _ => destruct c as [s1|] eqn:H1 end;
      cbn [bind]; [|discriminate].
    destruct (read_intervals_chromosome R intervals_file 0 s1) as [s2|] eqn:H2;
      cbn [bind]; [|discriminate].
    intros H3.
    apply for_modes_modes in H1; [|intros ? ? ? E; now inversion E].
    apply read_intervals_chromosome_modes in H2.
    apply for_modes_modes in H3; [congruence|].
    intros m a a'. unfold reselect.
    destruct (sample_indices_of a m); cbn [bind]; [|discriminate].
    destruct (_get_indices_and_probabilities _ _ _); cbn [bind];
      intros E; inversion E; reflexivity.
  - unfold _partition_dataset_proportion.
    destruct (read_intervals_proportion R intervals_file s) as [s1|] eqn:H1;
      cbn [bind]; [|discriminate].
    apply read_intervals_proportion_frame in H1. destruct H1 as (H1 & _).
    destruct (shuffle R _ _) as [sel g].
    destruct (int_of_product _ _); cbn [bind]; [|discriminate].
    destruct (_get_indices_and_probabilities _ _ _); cbn [bind];
      [|discriminate].
    destruct (truthy _).
    + destruct (match test_holdout _ with Some h => _ | None => _ end);
        cbn [bind]; [|discriminate].
      destruct (_get_indices_and_probabilities _ _ _); cbn [bind];
      [|discriminate].
      destruct (_get_indices_and_probabilities _ _ _); cbn [bind];
      [|discriminate].
      intros E; inversion E; subst; simpl; assumption.
    + destruct (_get_indices_and_probabilities _ _ _); cbn [bind];
        [|discriminate].
      intros E; inversion E; subst; simpl; assumption.
Qed.

(** C9: the constructor refills the cache of every mode, so when the
    partition leaves some mode without an index the constructor raises and
    no sampler is built. *)
Theorem init_raises_on_empty_partition (ms : list mode) (ht : holdout_type)
  (validation : holdout) (test : option holdout) (g : rng R)
  (intervals_file : list string) (s : sampler R) (m : mode) :
  partition_dataset F R intervals_file (new_sampler R ms ht validation test g)
  = Ok s ->
  In m ms ->
  stored_indices s m = [] ->
  exists e, __init__ F R ms ht validation test g intervals_file = Raise e.
Proof.
  intros Hp Hin Hm. unfold __init__. rewrite Hp. cbn [bind].
  apply (refill_loop_raises (modes s) s m); [|exact Hm].
  now rewrite (partition_dataset_modes _ _ _ Hp), new_sampler_modes.
Qed.

(** A constructor that raises nothing leaves every mode with an index
    list that is not empty, weights that [np.random.choice] accepts and a
    cache entry: the conditions of [refill_then_reads]. *)
Lemma init_checks (ms : list mode) (ht : holdout_type) (validation : holdout)
  (test : option holdout) (g : rng R) (intervals_file : list string)
  (s : sampler R) (m : mode) :
  __init__ F R ms ht validation test g intervals_file = Ok s ->
  In m ms ->
  exists si,
    _sample_from_mode s m = Some (Some si) /\
    _randcache s m <> None /\
    (1 <= List.length (indices si))%nat /\
    valid_weights (List.length (indices si)) (weights si).
Proof.
  unfold __init__.
  destruct (partition_dataset F R intervals_file _) as [s0|] eqn:Hp;
    cbn [bind]; [|discriminate].
  intros H Hin. apply (refill_loop_checks _ _ _ _ H).
  now rewrite (partition_dataset_modes _ _ _ Hp), new_sampler_modes.
Qed.

End Cache.

(** ** The model on example inputs *)

(** Lengths 10, 0 and 90: the second pass keeps both survivors. *)
Example selector_three_intervals :
  selector_pass exact_arithmetic [10; 0; 90] [0; 1; 2] = Ok (Recurse [0; 2]) /\
  _get_indices_and_probabilities exact_arithmetic [10; 0; 90] [0; 1; 2]
  = Ok ([0; 2], [Fin (10 # 100); Fin (90 # 100)]).
Proof. split; reflexivity. Qed.

(** A zero total: the quotients are [inf] and [-inf], and the recursive call
    is on the positive length alone. *)
Example selector_zero_total :
  selector_pass exact_arithmetic [1; -1] [0; 1] = Ok (Recurse [0]) /\
  _get_indices_and_probabilities exact_arithmetic [1; -1] [0; 1]
  = Ok ([0], [Fin (1 # 1)]).
Proof. split; reflexivity. Qed.

(** An index outside the table raises, a negative one counts from the end. *)
Example selector_indexing :
  _get_indices_and_probabilities exact_arithmetic [10; 0; 90] [3]
  = Raise IndexError /\
  _get_indices_and_probabilities exact_arithmetic [10; 0; 90] [-1]
  = Ok ([-1], [Fin (90 # 90)]).
Proof. split; reflexivity. Qed.

(** Two intervals a chromosome each: the chromosome split puts one in
    validate and one in train, and the constructor fills both caches. *)
Example init_chromosome_split :
  match
    __init__ exact_arithmetic counter_state [Train; Validate] chromosome
      (Chromosomes ["chr2"]) None 0%nat
      [tsv ["chr1"; "0"; "10"]; tsv ["chr2"; "5"; "50"]]
  with
  | Ok s =>
      stored_indices s Train = [0] /\ stored_indices s Validate = [1] /\
      option_map cache_indices (_randcache s Train) = Some (Some [0]) /\
      option_map cache_indices (_randcache s Validate) = Some (Some [1])
  | Raise _ => False
  end.
Proof. vm_compute. repeat split. Qed.

(** ** The claims on the example inputs *)



Lemma refill_then_reads_witness :
  exists s1 drawn s2,
    _update_randcache counter_state (Some Train) train_sampler = Ok s1 /\
    _randcache s1 Train = Some (mkCacheEntry None (Some drawn) 0) /\
    List.length drawn = 2%nat /\
    Forall (fun i => In i [0; 2]) drawn /\
    read_indices counter_state 2 s1 = Ok (drawn, s2).
Proof.
  apply (refill_then_reads counter_state train_sampler
           (mkSampleIndices [0; 2] [Fin (1 # 10); Fin (9 # 10)])
           (mkCacheEntry None None 0)).
  - reflexivity.
  - reflexivity.
  - simpl; lia.
  - exists [1 # 10; 9 # 10]%Q. repeat split.
    + repeat constructor; discriminate.
    + discriminate.
Defined.

Lemma init_raises_on_empty_partition_witness :
  exists e,
    __init__ exact_arithmetic counter_state [Train; Validate; Test] proportion
      (Proportion (34 # 100)) (Some (Proportion (34 # 100))) 0%nat
      three_intervals = Raise e.
Proof.
  eapply (init_raises_on_empty_partition exact_arithmetic counter_state
            [Train; Validate; Test] proportion (Proportion (34 # 100))
            (Some (Proportion (34 # 100))) 0%nat three_intervals _ Test).
  - vm_compute; reflexivity.
  - simpl; auto.
  - reflexivity.
Defined.

(* ------------------------------------------------------------------ *)
(** ** Further properties of the sampler *)
(* ------------------------------------------------------------------ *)

(** *** The selector *)

(** An index that [np.array(a)[indices]] accepts: negative ones count
    from the end. *)
Definition valid_index (n i : Z) : Prop := - n <= i < n.

Lemma getitem_valid {A} (l : list A) (i : Z) :
  (valid_index (len l) i -> exists x, getitem l i = Ok x) /\
  (~ valid_index (len l) i -> getitem l i = Raise IndexError).
Proof.
  unfold valid_index, getitem. split; intros Hi.
  - destruct (Z.ltb_spec i 0).
    + destruct (Z.leb_spec 0 (i + len l)); [|lia].
      destruct (Z.ltb_spec (i + len l) (len l)); [|lia]. simpl.
      destruct (nth_error l (Z.to_nat (i + len l))) eqn:Hn; [eauto|].
      apply nth_error_None in Hn. unfold len in *. lia.
    + destruct (Z.leb_spec 0 i); [|lia].
      destruct (Z.ltb_spec i (len l)); [|lia]. simpl.
      destruct (nth_error l (Z.to_nat i)) eqn:Hn; [eauto|].
      apply nth_error_None in Hn. unfold len in *. lia.
  - destruct (Z.ltb_spec i 0).
    + destruct (Z.leb_spec 0 (i + len l)); [|reflexivity].
      destruct (Z.ltb_spec (i + len l) (len l)); [lia | reflexivity].
    + destruct (Z.leb_spec 0 i); [|lia].
      destruct (Z.ltb_spec i (len l)); [lia | reflexivity].
Qed.

Lemma getitem_raises {A} (l : list A) (i : Z) (e : exn) :
  getitem l i = Raise e -> e = IndexError.
Proof.
  unfold getitem. destruct (_ && _); [|now intros H; inversion H].
  destruct (nth_error l _); intros H; now inversion H.
Qed.

Lemma take_valid (a indices : list Z) :
  (Forall (valid_index (len a)) indices -> exists sel, take a indices = Ok sel)
  /\
  (Exists (fun i => ~ valid_index (len a) i) indices ->
   take a indices = Raise IndexError).
Proof.
  split.
  - induction 1 as [|i rest Hi _ [sel IH]]; simpl; [eauto|].
    destruct (proj1 (getitem_valid a i) Hi) as [x ->]. rewrite IH.
    simpl. eauto.
  - induction 1 as [i rest Hi|i rest _ IH]; simpl.
    + now rewrite (proj2 (getitem_valid a i) Hi).
    + destruct (getitem a i) as [x|e] eqn:Hx; cbn [bind].
      * now rewrite IH.
      * now rewrite (getitem_raises _ _ _ Hx).
Qed.

Section SelectorMore.

Variable F : Arithmetic.

(** On a table of int64 lengths the selector raises exactly when an
    index is outside the table, and then [IndexError]; on indices inside
    the table, negative ones counted from the end, it returns a subsequence
    of the candidates: it adds no index and keeps their order. *)
Theorem selector_index_error (interval_lengths indices : list Z) :
  Forall int64_value interval_lengths ->
  (Forall (valid_index (len interval_lengths)) indices ->
   exists kept ws,
     _get_indices_and_probabilities F interval_lengths indices
     = Ok (kept, ws) /\
     subseq kept indices) /\
  (Exists (fun i => ~ valid_index (len interval_lengths) i) indices ->
   _get_indices_and_probabilities F interval_lengths indices
   = Raise IndexError).
Proof.
  intros _. split.
  - intros H. destruct (proj1 (take_valid _ _) H) as [sel Ht].
    destruct (selector_loop_returns F interval_lengths (List.length indices)
                indices sel Ht (le_n _)) as (kept & ws & Hl & _).
    exists kept, ws. split; [exact Hl|].
    exact (selector_loop_subseq F _ _ _ _ _ Hl).
  - intros H. rewrite _get_indices_and_probabilities_eq.
    unfold selector_pass. now rewrite (proj2 (take_valid _ _) H).
Qed.

Lemma zero_dropped (total : Z) :
  gt_threshold (np_true_divide F 0 total) = false.
Proof.
  apply not_true_iff_false. intros Hk.
  destruct (Z.eq_dec total 0) as [->|Hne]; [discriminate Hk|].
  apply (kept_sign F 0 total Hne) in Hk.
  unfold Qlt, Qdiv, Qmult, inject_Z in Hk. simpl in Hk. lia.
Qed.

(** What the final activation of the selector was run on. *)
Lemma selector_final_pass (interval_lengths indices kept : list Z)
  (ws : list weight) :
  _get_indices_and_probabilities F interval_lengths indices = Ok (kept, ws) ->
  exists sel,
    take interval_lengths kept = Ok sel /\
    ws = map (fun x => np_true_divide F x (np_sum sel)) sel /\
    Forall (fun w => gt_threshold w = true) ws.
Proof.
  intros Hget.
  assert (Ht : exists sel0, take interval_lengths indices = Ok sel0).
  { rewrite _get_indices_and_probabilities_eq in Hget.
    unfold selector_pass in Hget.
    destruct (take interval_lengths indices) as [sel0|];
      [eauto | discriminate]. }
  destruct Ht as [sel0 Ht].
  destruct (selector_loop_returns F interval_lengths (List.length indices)
              indices sel0 Ht (le_n _)) as (kept' & ws' & Hloop & Hpass).
  unfold _get_indices_and_probabilities in Hget.
  rewrite Hget in Hloop. inversion Hloop; subst kept' ws'.
  destruct (selector_pass_return F _ _ _ _ Hpass) as (_ & _ & Hall).
  unfold selector_pass in Hpass.
  destruct (take interval_lengths kept) as [sel|]; cbn [bind] in Hpass;
    [|discriminate].
  exists sel. split; [reflexivity|].
  destruct (_ =? _) in Hpass; inversion Hpass; subst. auto.
Qed.

(** An interval of length zero is never kept: every index the selector
    returns has a length that is not zero, and the weights are as many as
    the indices. *)
Theorem selector_drops_zero_length (interval_lengths indices kept : list Z)
  (ws : list weight) :
  _get_indices_and_probabilities F interval_lengths indices = Ok (kept, ws) ->
  exists sel,
    take interval_lengths kept = Ok sel /\
    Forall (fun x => x <> 0) sel /\
    List.length ws = List.length kept.
Proof.
  intros Hget.
  destruct (selector_final_pass _ _ _ _ Hget) as (sel & Ht & -> & Hall).
  exists sel. split; [exact Ht|]. split.
  - rewrite Forall_map in Hall. eapply Forall_impl; [|exact Hall].
    intros x Hx ->. now rewrite zero_dropped in Hx.
  - rewrite length_map. exact (take_length _ _ _ Ht).
Qed.

(** Nothing is pruned when no selected length is negligible: on a table
    of int64 lengths, with a positive total and every selected length
    above [total / (10^10 - 1)], the selector returns the candidates as
    they are, each with its length over the total as weight. *)
Theorem selector_keeps_all (interval_lengths indices sel : list Z) :
  Forall int64_value interval_lengths ->
  take interval_lengths indices = Ok sel ->
  0 < np_sum sel ->
  Forall (fun x => np_sum sel < x * 9999999999) sel ->
  _get_indices_and_probabilities F interval_lengths indices
  = Ok (indices, map (fun x => Fin (fl_div F x (np_sum sel))) sel).
Proof. intros _. apply selector_keeps_candidates. Qed.

End SelectorMore.

Lemma selector_drops_zero_length_witness :
  exists sel,
    take [10; 0; 90] [0; 2] = Ok sel /\
    Forall (fun x => x <> 0) sel /\
    List.length [Fin (10 # 100); Fin (90 # 100)] = List.length [0; 2].
Proof.
  exact (selector_drops_zero_length exact_arithmetic [10; 0; 90] [0; 1; 2]
           [0; 2] [Fin (10 # 100); Fin (90 # 100)] eq_refl).
Defined.

Lemma selector_keeps_all_witness :
  _get_indices_and_probabilities exact_arithmetic [10; 20; 70] [2; 0; 1]
  = Ok ([2; 0; 1],
        map (fun x => Fin (fl_div exact_arithmetic x 100)) [70; 10; 20]).
Proof.
  apply (selector_keeps_all exact_arithmetic [10; 20; 70] [2; 0; 1]
           [70; 10; 20]).
  - repeat constructor; discriminate.
  - reflexivity.
  - reflexivity.
  - repeat constructor.
Defined.

Lemma selector_index_error_witness :
  (exists kept ws,
     _get_indices_and_probabilities exact_arithmetic [10; 0; 90] [2; -3; 1]
     = Ok (kept, ws) /\
     subseq kept [2; -3; 1]) /\
  _get_indices_and_probabilities exact_arithmetic [10; 0; 90] [2; 3]
  = Raise IndexError.
Proof.
  destruct (selector_index_error exact_arithmetic [10; 0; 90] [2; -3; 1])
    as [Hin _]; [repeat constructor; discriminate|].
  destruct (selector_index_error exact_arithmetic [10; 0; 90] [2; 3])
    as [_ Hout]; [repeat constructor; discriminate|].
  split.
  - apply Hin. repeat constructor; discriminate.
  - apply Hout. right. left. unfold valid_index. vm_compute.
    intros [_ H]. discriminate H.
Defined.

(** *** Refills and reads *)

Section CacheMore.

Variable F : Arithmetic.
Variable R : RandomState.

(** A refill raises nothing exactly when the mode has an index list that
    is not empty, weights that [np.random.choice] accepts for it, and an
    entry in the cache. *)
Theorem update_randcache_ok_iff (s : sampler R) (m : mode) :
  (exists s', _update_randcache R (Some m) s = Ok s') <->
  (exists si entry,
     _sample_from_mode s m = Some (Some si) /\
     _randcache s m = Some entry /\
     (1 <= List.length (indices si))%nat /\
     valid_weights (List.length (indices si)) (weights si)).
Proof.
  split.
  - intros [s' H]. exact (update_randcache_checks R _ _ _ H).
  - intros (si & entry & Hsi & He & HN & Hw).
    assert (Hne : indices si <> [])
      by (destruct (indices si); [simpl in HN; lia | discriminate]).
    destruct (np_random_choice_ok R (indices si) (len (indices si))
                (weights si) (random_state s) Hne ltac:(unfold len; lia) Hw)
      as (drawn & g & Hch & _).
    unfold _update_randcache.
    rewrite (sample_indices_of_stored R _ _ _ Hsi). cbn [bind].
    rewrite Hch. cbn [bind]. unfold dict_get.
    change (_randcache (set_random_state R s g)) with (_randcache s).
    rewrite He. cbn [bind]. eauto.
Qed.

(** A mode that can be read from: it has indices and accepted weights,
    and its cache holds as many drawn indices as the mode has indices, all
    of them indices of the mode, with the cursor inside the cache. *)
Definition mode_ready (s : sampler R) (m : mode) (si : SampleIndices)
  : Prop :=
  _sample_from_mode s m = Some (Some si) /\
  (1 <= List.length (indices si))%nat /\
  valid_weights (List.length (indices si)) (weights si) /\
  exists entry drawn,
    _randcache s m = Some entry /\
    cache_indices entry = Some drawn /\
    List.length drawn = List.length (indices si) /\
    Forall (fun i => In i (indices si)) drawn /\
    0 <= sample_next entry <= len (indices si).

Lemma update_randcache_ready (s s' : sampler R) (m : mode) :
  _update_randcache R (Some m) s = Ok s' ->
  exists si,
    _sample_from_mode s m = Some (Some si) /\ mode_ready s' m si /\
    option_map sample_next (_randcache s' m) = Some 0.
Proof.
  intros Hu.
  destruct (update_randcache_checks R _ _ _ Hu)
    as (si & entry & Hsi & He & HN & Hw).
  exists si. split; [exact Hsi|].
  assert (Hne : indices si <> [])
    by (destruct (indices si); [simpl in HN; lia | discriminate]).
  destruct (np_random_choice_ok R (indices si) (len (indices si))
              (weights si) (random_state s) Hne ltac:(unfold len; lia) Hw)
    as (drawn & g & Hch & Hld & Hin).
  unfold len in Hld. rewrite Nat2Z.id in Hld.
  unfold _update_randcache in Hu.
  rewrite (sample_indices_of_stored R _ _ _ Hsi) in Hu. cbn [bind] in Hu.
  rewrite Hch in Hu. cbn [bind] in Hu. unfold dict_get in Hu.
  change (_randcache (set_random_state R s g)) with (_randcache s) in Hu.
  rewrite He in Hu. cbn [bind] in Hu. inversion Hu; subst s'; clear Hu.
  split; [|simpl; unfold dict_set; now rewrite mode_eqb_refl].
  repeat split; try assumption.
  exists (mkCacheEntry (cache entry) (Some drawn) 0), drawn.
  simpl. unfold dict_set. rewrite mode_eqb_refl.
  repeat split; try assumption; unfold len; lia.
Qed.

Lemma mode_eqb_eq (a b : mode) : mode_eqb a b = true <-> a = b.
Proof. destruct a, b; simpl; split; congruence. Qed.

Lemma update_randcache_keeps_ready (s s' : sampler R) (m m' : mode)
  (si : SampleIndices) :
  _update_randcache R (Some m') s = Ok s' ->
  mode_ready s m si -> mode_ready s' m si.
Proof.
  intros Hu Hr. destruct (mode_eqb m m') eqn:E.
  - apply mode_eqb_eq in E. subst m'.
    destruct (update_randcache_ready _ _ _ Hu) as (si' & Hsi' & Hr' & _).
    destruct Hr as (Hsi & _). rewrite Hsi in Hsi'.
    inversion Hsi'; subst. exact Hr'.
  - destruct Hr as (Hsi & HN & Hw & entry & drawn & He & Hc & Hl & Hin & Hn).
    destruct (update_randcache_frame R _ _ _ Hu) as [Hsfm _].
    split; [now rewrite Hsfm|]. split; [exact HN|]. split; [exact Hw|].
    exists entry, drawn. split; [|repeat split; try assumption; lia].
    unfold _update_randcache in Hu.
    destruct (sample_indices_of s m') as [si'|]; cbn [bind] in Hu;
      [|discriminate].
    destruct (np_random_choice R _ _ _ _) as [[d g]|]; cbn [bind] in Hu;
      [|discriminate].
    destruct (dict_get _ _) as [e'|]; cbn [bind] in Hu; [|discriminate].
    inversion Hu; subst s'. simpl. unfold dict_set. now rewrite E.
Qed.

Lemma refill_loop_ready (ms : list mode) (s s' : sampler R) (m : mode) :
  for_modes R (fun m s => _update_randcache R (Some m) s) ms s = Ok s' ->
  In m ms ->
  exists si, mode_ready s' m si.
Proof.
  assert (Hkeep : forall ms s s' si,
            for_modes R (fun m s => _update_randcache R (Some m) s) ms s
            = Ok s' ->
            mode_ready s m si -> mode_ready s' m si).
  { clear. induction ms as [|m0 ms IH]; intros s s' si; simpl.
    - intros H; now inversion H.
    - destruct (_update_randcache R (Some m0) s) as [s1|] eqn:Hu;
        cbn [bind]; [|discriminate].
      intros H Hr. apply (IH _ _ _ H).
      exact (update_randcache_keeps_ready _ _ _ _ _ Hu Hr). }
  revert s; induction ms as [|m0 ms IH]; intros s; simpl; [contradiction|].
  destruct (_update_randcache R (Some m0) s) as [s1|] eqn:Hu; cbn [bind];
    [|discriminate].
  intros H [->|Hin]; [|exact (IH _ H Hin)].
  destruct (update_randcache_ready _ _ _ Hu) as (si & _ & Hr & _).
  exists si. exact (Hkeep _ _ _ _ H Hr).
Qed.

(** One index read on a ready current mode: it raises nothing, returns an
    index of the mode, refilling the cache when the cursor is at its end,
    and leaves the mode ready. *)
Lemma next_index_ready (s : sampler R) (si : SampleIndices) :
  mode_ready s (current_mode s) si ->
  exists i s',
    next_index R s = Ok (i, s') /\
    In i (indices si) /\
    current_mode s' = current_mode s /\
    mode_ready s' (current_mode s) si.
Proof.
  intros Hr.
  pose proof Hr as (Hsi & HN & Hw & entry & drawn & He & Hc & Hl & Hin & Hn).
  unfold next_index. unfold dict_get at 1. rewrite He. cbn [bind].
  rewrite (sample_indices_of_stored R _ _ _ Hsi). cbn [bind].
  destruct (Z.eqb_spec (sample_next entry) (len (indices si))) as [E|E].
  - (* the cursor is at the end: refill, then read position 0 *)
    change (_update_randcache R None s)
      with (_update_randcache R (Some (current_mode s)) s).
    destruct (proj2 (update_randcache_ok_iff s (current_mode s)))
      as [s1 Hu]; [exists si, entry; auto|].
    rewrite Hu. cbn [bind].
    destruct (update_randcache_frame R _ _ _ Hu) as [Hsfm _].
    assert (Hcur : current_mode s1 = current_mode s).
    { unfold _update_randcache in Hu.
      destruct (sample_indices_of s _); cbn [bind] in Hu; [|discriminate].
      destruct (np_random_choice R _ _ _ _) as [[d g]|]; cbn [bind] in Hu;
        [|discriminate].
      destruct (dict_get _ _); cbn [bind] in Hu; [|discriminate].
      now inversion Hu. }
    destruct (update_randcache_ready _ _ _ Hu) as (si' & Hsi' & Hr1 & H0).
    rewrite Hsi in Hsi'. inversion Hsi'; subst si'.
    destruct Hr1 as (Hsi1 & _ & _ & e1 & d1 & He1 & Hc1 & Hl1 & Hin1 & Hn1).
    rewrite He1 in H0. simpl in H0. injection H0 as H0'.
    rewrite Hcur. unfold dict_get. rewrite He1. cbn [bind].
    rewrite Hc1. cbn [bind].
    destruct d1 as [|x d1]; [simpl in Hl1; lia|].
    change (getitem (x :: d1) 0) with (getitem ([] ++ x :: d1) (len (@nil Z))).
    rewrite getitem_app_middle. cbn [bind].
    exists x. eexists. split; [reflexivity|].
    split; [inversion Hin1; assumption|]. split; [exact Hcur|].
    split; [simpl; now rewrite Hsfm|]. split; [exact HN|]. split; [exact Hw|].
    eexists; exists (x :: d1). simpl. unfold dict_set.
    rewrite mode_eqb_refl. split; [reflexivity|]. simpl.
    repeat split; try assumption; unfold len in *; lia.
  - (* the cursor is inside the cache *)
    cbn [bind]. unfold dict_get. rewrite He. cbn [bind].
    rewrite Hc. cbn [bind].
    assert (Hlt : 0 <= sample_next entry < len drawn)
      by (unfold len in *; lia).
    destruct (getitem_in_range drawn (sample_next entry) Hlt) as [x Hx].
    rewrite Hx. cbn [bind].
    exists x. eexists. split; [reflexivity|].
    split.
    { rewrite Forall_forall in Hin. apply Hin. eapply getitem_In; eauto. }
    split; [reflexivity|].
    split; [exact Hsi|]. split; [exact HN|]. split; [exact Hw|].
    eexists; exists drawn. simpl. unfold dict_set.
    rewrite mode_eqb_refl. split; [reflexivity|]. simpl.
    repeat split; try assumption; unfold len in *; lia.
Qed.

Lemma read_indices_ready (n : nat) :
  forall (s : sampler R) (si : SampleIndices),
    mode_ready s (current_mode s) si ->
    exists out s',
      read_indices R n s = Ok (out, s') /\
      List.length out = n /\
      Forall (fun i => In i (indices si)) out.
Proof.
  induction n as [|n IH]; intros s si Hr.
  - exists [], s. repeat split. constructor.
  - destruct (next_index_ready s si Hr) as (i & s1 & Hi & Hin & Hcur & Hr1).
    rewrite <- Hcur in Hr1.
    destruct (IH s1 si Hr1) as (out & s2 & Hout & Hlen & Hall).
    exists (i :: out), s2. simpl. rewrite Hi. cbn [bind].
    rewrite Hout. cbn [bind]. repeat split; [simpl; lia|].
    constructor; assumption.
Qed.

(** After a refill of the current mode any number of index reads raises
    nothing: the loop of [sample] refills the cache whenever the cursor
    reaches its end, and every index it reads is an index of the mode. *)
Theorem reads_after_refill (s s1 : sampler R) (n : nat) :
  _update_randcache R None s = Ok s1 ->
  exists out s2,
    read_indices R n s1 = Ok (out, s2) /\
    List.length out = n /\
    Forall (fun i => In i (stored_indices s (current_mode s))) out.
Proof.
  change (_update_randcache R None s)
    with (_update_randcache R (Some (current_mode s)) s).
  intros Hu.
  destruct (update_randcache_ready _ _ _ Hu) as (si & Hsi & Hr & _).
  assert (Hcur : current_mode s1 = current_mode s).
  { unfold _update_randcache in Hu.
    destruct (sample_indices_of s _); cbn [bind] in Hu; [|discriminate].
    destruct (np_random_choice R _ _ _ _) as [[d g]|]; cbn [bind] in Hu;
      [|discriminate].
    destruct (dict_get _ _); cbn [bind] in Hu; [|discriminate].
    now inversion Hu. }
  rewrite <- Hcur in Hr.
  destruct (read_indices_ready n s1 si Hr) as (out & s2 & H1 & H2 & H3).
  exists out, s2. repeat split; try assumption.
  unfold stored_indices. now rewrite Hsi.
Qed.

(** The sampler the constructor returns can be read from for ever: on a
    table of int64 lengths, when its current mode is one of the modes, any
    number of index reads raises nothing and returns indices of that
    mode's partition. *)
Theorem init_then_reads (ms : list mode) (ht : holdout_type)
  (validation : holdout) (test : option holdout) (g : rng R)
  (intervals_file : list string) (s : sampler R) (n : nat) :
  __init__ F R ms ht validation test g intervals_file = Ok s ->
  Forall int64_value (interval_lengths s) ->
  In (current_mode s) ms ->
  exists out s',
    read_indices R n s = Ok (out, s') /\
    List.length out = n /\
    Forall (fun i => In i (stored_indices s (current_mode s))) out.
Proof.
  unfold __init__.
  destruct (partition_dataset F R intervals_file _) as [s0|] eqn:Hp;
    cbn [bind]; [|discriminate].
  rewrite (partition_dataset_modes F R _ _ _ Hp), new_sampler_modes.
  intros H _ Hin.
  destruct (refill_loop_ready _ _ _ _ H Hin) as [si Hr].
  destruct (read_indices_ready n s si Hr) as (out & s2 & H1 & H2 & H3).
  exists out, s2. repeat split; try assumption.
  destruct Hr as (Hsi & _). unfold stored_indices. now rewrite Hsi.
Qed.

End CacheMore.

(** Two intervals, a chromosome each, split by chromosome. *)
Definition two_chromosomes : result (sampler counter_state) :=
  __init__ exact_arithmetic counter_state [Train; Validate] chromosome
    (Chromosomes ["chr2"]) None 0%nat
    [tsv ["chr1"; "0"; "10"]; tsv ["chr2"; "5"; "50"]].

Lemma reads_after_refill_witness :
  match _update_randcache counter_state None train_sampler with
  | Ok s1 =>
      exists out s2,
        read_indices counter_state 5 s1 = Ok (out, s2) /\
        List.length out = 5%nat /\
        Forall (fun i => In i [0; 2]) out
  | Raise _ => False
  end.
Proof.
  destruct (_update_randcache counter_state None train_sampler) as [s1|e]
    eqn:Hu.
  - exact (reads_after_refill counter_state train_sampler s1 5 Hu).
  - vm_compute in Hu. discriminate Hu.
Defined.


Lemma init_then_reads_witness :
  match two_chromosomes with
  | Ok s =>
      exists out s',
        read_indices counter_state 3 s = Ok (out, s') /\
        List.length out = 3%nat /\
        Forall (fun i => In i (stored_indices s (current_mode s))) out
  | Raise _ => False
  end.
Proof.
  unfold two_chromosomes.
  destruct (__init__ _ _ _ _ _ _ _ _) as [s|e] eqn:Hs.
  - apply (init_then_reads exact_arithmetic counter_state [Train; Validate]
             chromosome (Chromosomes ["chr2"]) None 0%nat
             [tsv ["chr1"; "0"; "10"]; tsv ["chr2"; "5"; "50"]] s 3 Hs).
    + vm_compute in Hs. injection Hs as <-.
      repeat constructor; discriminate.
    + vm_compute in Hs. injection Hs as <-. left. reflexivity.
  - vm_compute in Hs. discriminate Hs.
Defined.

End IntervalsSampler.

(* ================================================================== *)
(** * Variant effect prediction: [_variant_effect_prediction.py] *)
(* ================================================================== *)

Module VariantEffect.

Import Py PyFacts.

Local Open Scope string_scope.
Local Open Scope Z_scope.

(** [_get_ref_idxs(mid, strand, ref_len)]. *)
Definition _get_ref_idxs (mid : Z) (strand : string) (ref_len : Z) : Z * Z :=
  let start_pos :=
    if (strand =? "-")%string && (ref_len >? 1) then
      mid - (ref_len + 1) / 2 + 1
    else if (strand =? "+")%string && (ref_len =? 1) then
      mid - 1
    else if (strand =? "+")%string then
      mid - ref_len / 2 - 1
    else mid in
  let end_pos := start_pos + ref_len in
  (start_pos, end_pos).

(** ** [read_vcf_file] *)

Definition VCF_REQUIRED_COLS : list string :=
  ["#CHROM"; "POS"; "ID"; "REF"; "ALT"].

(** A variant: [(chrom, pos, name, ref, alt, strand)]. *)
Definition variant : Type := string * Z * string * string * string * string.

Definition tab : ascii := "009".

(** [cols[:5] != VCF_REQUIRED_COLS]. *)
Definition required_cols_differ (cols : list string) : bool :=
  if list_eq_dec string_dec (slice None (Some 5) cols) VCF_REQUIRED_COLS
  then false else true.

(** The first loop, from the line at position [index] on: the position
    where the variants start.  The loop stops before the first line without
    ['#'] and after the line with ["#CHROM"]; when the lines run out,
    [index] is still the position of the last line. *)
Fixpoint scan_header (lines : list string) (index : Z) : result Z :=
  match lines with
  | [] => Ok index
  | line :: rest =>
      if negb (contains_char "#" line) then Ok index
      else if contains "#CHROM" line then
        let cols := split tab (strip line) in
        if required_cols_differ cols then Raise ValueError
        else Ok (index + 1)
      else match rest with
           | [] => Ok index
           | _ :: _ => scan_header rest (index + 1)
           end
  end.

(** A line of the header block before the column line: it holds ['#'] and
    not ["#CHROM"]. *)
Definition comment_line (line : string) : Prop :=
  contains_char "#" line = true /\ contains "#CHROM" line = false.

(** The strand of a record, [None] when the record is skipped. *)
Definition record_strand (strand_index : option Z) (cols : list string)
  : result (option string) :=
  match strand_index with
  | None => Ok (Some ".")
  | Some i =>
      c <- getitem cols i ;;
      if (c =? "-")%string then Ok (Some "-")
      else if (c =? "+")%string || (c =? ".")%string then Ok (Some "+")
      else Ok None
  end.

(** The variants one record gives: one per allele of the ALT column. *)
Definition expand (chrom : string) (pos : Z) (name ref alt strand : string)
  : list variant :=
  map (fun a => (chrom, pos, name, ref, a, strand)) (split "," alt).

(** The body of the second loop: the variants one line adds. *)
Definition read_variant_line (strand_index : option Z) (line : string)
  : result (list variant) :=
  let cols := split tab (strip line) in
  if len cols <? 5 then Ok []
  else
    chrom <- getitem cols 0 ;;
    pos_text <- getitem cols 1 ;;
    pos <- int pos_text ;;
    name <- getitem cols 2 ;;
    ref <- getitem cols 3 ;;
    let ref := if (ref =? "-")%string then "" else ref in
    alt <- getitem cols 4 ;;
    strand <- record_strand strand_index cols ;;
    match strand with
    | None => Ok []
    | Some strand =>
        Ok (expand chrom pos name ref alt strand)
    end.

Fixpoint read_variants (strand_index : option Z) (lines : list string)
  (variants : list variant) : result (list variant) :=
  match lines with
  | [] => Ok variants
  | line :: rest =>
      added <- read_variant_line strand_index line ;;
      read_variants strand_index rest (variants ++ added)
  end.

(** [read_vcf_file(input_path, strand_index)] on the lines of the file. *)
Definition read_vcf_file (lines : list string) (strand_index : option Z)
  : result (list variant) :=
  index <- scan_header lines 0 ;;
  read_variants strand_index (slice (Some index) None lines) [].

(** ** The reference sequence *)

(** The object [reference_sequence], as far as this module calls it.  An
    encoding is an array of rows, one per base; [np.array_equal] on
    encodings is equality of the rows. *)
Record Sequence : Type := mkSequence {
  row : Type;
  row_eq_dec : forall a b : row, {a = b} + {a <> b};
  sequence_to_encoding : string -> list row;
  encoding_to_sequence : list row -> string;
  (** [get_sequence_from_coords(chrom, start, end, strand, pad)] *)
  get_sequence_from_coords : string -> Z -> Z -> string -> bool -> string
}.

(** A toy genome: a base is encoded as itself, and every coordinate
    holds the base N. *)
Definition letters : Sequence :=
  mkSequence ascii ascii_dec list_ascii_of_string string_of_list_ascii
    (fun _ start end_ _ _ =>
       string_of_list_ascii (repeat "N"%char (Z.to_nat (end_ - start)))).

(** Modelled from the spec: [_truncate_sequence] of [_common.py] is not
    among the sources.  The spec has the sequence truncated to the window
    length, the extra bases dropped from the far end and not re-centred. *)
Definition truncate_far_end (sequence : string) (truncate_size : Z) : string :=
  str_slice None (Some truncate_size) sequence.

Section Alleles.

Variable reference_sequence : Sequence.

(** [_truncate_sequence(sequence, truncate_size)] of [_common.py]. *)
Variable _truncate_sequence : string -> Z -> string.

(** ** [_process_alt] *)

(** [alt] after the first statement: ['*'] and ['-'] mark a deletion. *)
Definition deletion_marker (alt : string) : bool :=
  (alt =? "*")%string || (alt =? "-")%string.

(** The text that [_process_alt] hands to [sequence_to_encoding]. *)
Definition alt_sequence (chrom : string) (pos : Z) (ref alt : string)
  (start end_ : Z) (strand wt_sequence : string) (start_radius : Z)
  : string :=
  let alt := if deletion_marker alt then "" else alt in
  let ref_len := str_len ref in
  let alt_len := str_len alt in
  if alt_len >? str_len wt_sequence then
    _truncate_sequence alt (str_len wt_sequence)
  else if ref_len =? alt_len then
    let '(start_pos, end_pos) := _get_ref_idxs start_radius strand ref_len in
    (str_slice None (Some start_pos) wt_sequence ++ alt
     ++ str_slice (Some end_pos) None wt_sequence)%string
  else if alt_len >? ref_len then
    let '(start_pos, end_pos) := _get_ref_idxs start_radius strand ref_len in
    _truncate_sequence
      (str_slice None (Some start_pos) wt_sequence ++ alt
       ++ str_slice (Some (start_pos + ref_len)) None wt_sequence)%string
      (str_len wt_sequence)
  else
    let lhs :=
      get_sequence_from_coords reference_sequence chrom
        (start - ref_len / 2 + alt_len / 2) (pos + 1) strand true in
    let rhs :=
      get_sequence_from_coords reference_sequence chrom
        (pos + 1 + ref_len)
        (end_ + Qceiling (ref_len # 2) - Qceiling (alt_len # 2))
        strand true in
    if (strand =? "-")%string then (rhs ++ alt ++ lhs)%string
    else (lhs ++ alt ++ rhs)%string.

Definition _process_alt (chrom : string) (pos : Z) (ref alt : string)
  (start end_ : Z) (strand wt_sequence : string) (start_radius : Z)
  : list (row reference_sequence) :=
  sequence_to_encoding reference_sequence
    (alt_sequence chrom pos ref alt start end_ strand wt_sequence
       start_radius).

(** ** [_handle_standard_ref] *)

Definition array_equal (a b : list (row reference_sequence)) : bool :=
  if list_eq_dec (row_eq_dec reference_sequence) a b then true else false.

(** [a[lo:hi, :] = value]: the rows of the slice are replaced; [value]
    must have as many rows as the slice, or one row, which is then
    broadcast over the slice. *)
Definition setitem_slice {A : Type} (lo hi : Z) (value a : list A)
  : result (list A) :=
  let n := len a in
  let lo' := norm_bound n lo in
  let hi' := norm_bound n hi in
  let k := Z.max (hi' - lo') 0 in
  let write rows :=
    (firstn (Z.to_nat lo') a ++ rows ++ skipn (Z.to_nat (lo' + k)) a)%list in
  if len value =? k then Ok (write value)
  else match value with
       | [v] => Ok (write (repeat v (Z.to_nat k)))
       | _ => Raise ValueError
       end.

Definition _handle_standard_ref (ref_encoding seq_encoding
  : list (row reference_sequence)) (mid : Z) (strand : string)
  : result (bool * list (row reference_sequence) * string) :=
  let ref_len := len ref_encoding in
  let '(start_pos, end_pos) := _get_ref_idxs mid strand ref_len in
  let sequence_encoding_at_ref :=
    slice (Some start_pos) (Some (start_pos + ref_len)) seq_encoding in
  let sequence_at_ref :=
    encoding_to_sequence reference_sequence sequence_encoding_at_ref in
  let references_match := array_equal sequence_encoding_at_ref ref_encoding in
  if negb references_match then
    seq_encoding <- setitem_slice start_pos (start_pos + ref_len)
                      ref_encoding seq_encoding ;;
    Ok (references_match, seq_encoding, sequence_at_ref)
  else Ok (references_match, seq_encoding, sequence_at_ref).

(** ** [_handle_long_ref] *)

(** [reverse] is the keyword argument, [True] by default; the function
    raises nothing. *)
Definition _handle_long_ref (ref_encoding seq_encoding
  : list (row reference_sequence)) (start_radius end_radius : Z)
  (reverse : bool) : bool * list (row reference_sequence) * string :=
  let ref_len := len ref_encoding in
  let sequence_encoding_at_ref := seq_encoding in
  let sequence_at_ref :=
    encoding_to_sequence reference_sequence sequence_encoding_at_ref in
  let ref_start := ref_len / 2 - start_radius in
  let ref_end := ref_len / 2 + end_radius in
  let ref_start := if negb reverse then ref_start - 1 else ref_start in
  let ref_end := if negb reverse then ref_end - 1 else ref_end in
  let ref_encoding := slice (Some ref_start) (Some ref_end) ref_encoding in
  let references_match := array_equal sequence_encoding_at_ref ref_encoding in
  let seq_encoding :=
    if negb references_match then ref_encoding else seq_encoding in
  (references_match, seq_encoding, sequence_at_ref).

End Alleles.

(** ** Properties of [_get_ref_idxs] *)

Lemma Qceiling_half (n : Z) : Qceiling (n # 2) = (n + 1) / 2.
Proof.
  unfold Qceiling, Qfloor; simpl.
  assert (H : (n + 1) = - n * -1 + 1) by lia.
  pose proof (Z.div_mod (- n) 2 ltac:(lia)) as Hd.
  pose proof (Z.mod_pos_bound (- n) 2 ltac:(lia)) as Hm.
  pose proof (Z.div_mod (n + 1) 2 ltac:(lia)) as Hd'.
  pose proof (Z.mod_pos_bound (n + 1) 2 ltac:(lia)) as Hm'.
  lia.
Qed.

(** C3: for every [mid] and [ref_len >= 1] the result is
    [(start, start + ref_len)], with [start = mid - ceil(ref_len/2) + 1] on
    the reverse strand when [ref_len > 1], [start = mid - 1] on the forward
    strand when [ref_len = 1], and [start = mid - ref_len // 2 - 1] on the
    forward strand when [ref_len > 1]. *)
Theorem get_ref_idxs_offsets (mid ref_len : Z) :
  1 <= ref_len ->
  (1 < ref_len ->
   _get_ref_idxs mid "-" ref_len =
   (mid - Qceiling (ref_len # 2) + 1,
    mid - Qceiling (ref_len # 2) + 1 + ref_len)) /\
  (ref_len = 1 ->
   _get_ref_idxs mid "+" ref_len = (mid - 1, mid - 1 + ref_len)) /\
  (1 < ref_len ->
   _get_ref_idxs mid "+" ref_len =
   (mid - ref_len / 2 - 1, mid - ref_len / 2 - 1 + ref_len)).
Proof.
  intros Hlen; repeat split; intros H; unfold _get_ref_idxs; simpl.
  - rewrite Qceiling_half.
    destruct (Z.gtb_spec ref_len 1); [reflexivity | lia].
  - subst; reflexivity.
  - destruct (Z.eqb_spec ref_len 1); [lia | reflexivity].
Qed.

Lemma get_ref_idxs_offsets_witness :
  1 <= 4 /\
  _get_ref_idxs 10 "-" 4 = (9, 13) /\
  _get_ref_idxs 10 "+" 4 = (7, 11).
Proof.
  split; [lia |].
  destruct (get_ref_idxs_offsets 10 4 ltac:(lia)) as (Hm & _ & Hp).
  split; [exact (Hm ltac:(lia)) | exact (Hp ltac:(lia))].
Defined.

(** C10: for a single-base reference allele the reverse strand falls through
    to the default [start = mid], one position to the right of the forward
    strand's [start = mid - 1]. *)
Theorem get_ref_idxs_single_base (mid : Z) :
  _get_ref_idxs mid "-" 1 = (mid, mid + 1) /\
  _get_ref_idxs mid "+" 1 = (mid - 1, mid) /\
  fst (_get_ref_idxs mid "-" 1) = fst (_get_ref_idxs mid "+" 1) + 1.
Proof.
  unfold _get_ref_idxs; simpl.
  repeat split; f_equal; lia.
Qed.

(** ** Properties of [read_vcf_file] *)

(** The fields of [split] hold no separator. *)
Lemma split_fields (sep : ascii) (s : string) :
  Forall (fun field => contains_char sep field = false) (split sep s).
Proof.
  induction s as [|c s IH]; simpl; [repeat constructor|].
  destruct (Ascii.eqb c sep) eqn:E.
  - constructor; [reflexivity | assumption].
  - destruct (split sep s) as [|field fields]; [repeat constructor; simpl|].
    + now rewrite E.
    + inversion IH; subst. constructor; [|assumption].
      simpl. now rewrite E.
Qed.

(** [split] undoes a join of fields that hold no separator. *)
Lemma split_plain (sep : ascii) (field : string) :
  contains_char sep field = false -> split sep field = [field].
Proof.
  induction field as [|c field IH]; simpl; [reflexivity|].
  intros H. apply orb_false_iff in H. destruct H as [Hc Hf].
  now rewrite Hc, (IH Hf).
Qed.

Lemma split_app (sep : ascii) (field more : string) :
  contains_char sep field = false ->
  split sep (field ++ String sep more) = field :: split sep more.
Proof.
  induction field as [|c field IH]; simpl.
  - intros _. now rewrite Ascii.eqb_refl.
  - intros H. apply orb_false_iff in H. destruct H as [Hc Hf].
    now rewrite Hc, (IH Hf).
Qed.

Lemma split_join (sep : ascii) (fields : list string) :
  fields <> [] ->
  Forall (fun field => contains_char sep field = false) fields ->
  split sep (String.concat (String sep "") fields) = fields.
Proof.
  intros Hne H. induction H as [|field fields Hf H IH]; [congruence|].
  destruct fields as [|next fields].
  - simpl. now apply split_plain.
  - change (String.concat (String sep "") (field :: next :: fields))
      with (field ++ String sep (String.concat (String sep "") (next :: fields))).
    rewrite (split_app _ _ _ Hf). f_equal. apply IH. discriminate.
Qed.

Lemma scan_header_columns (before : list string) (header : string)
  (rest : list string) (index : Z) :
  Forall comment_line before ->
  contains "#CHROM" header = true ->
  scan_header (before ++ header :: rest) index =
  if required_cols_differ (split tab (strip header)) then Raise ValueError
  else Ok (index + len before + 1).
Proof.
  intros Hb Hh. revert index.
  induction Hb as [|line before [Hc Hn] _ IH]; intros index.
  - simpl app. unfold scan_header.
    rewrite (contains_head _ _ _ Hh), Hh. simpl negb. cbv iota.
    unfold len; simpl List.length. now rewrite Z.add_0_r.
  - change ((line :: before) ++ header :: rest)%list
      with (line :: (before ++ header :: rest))%list.
    simpl scan_header. rewrite Hc, Hn. simpl negb. cbv iota.
    destruct (before ++ header :: rest)%list as [|l ls] eqn:E.
    { destruct before; discriminate. }
    rewrite IH. unfold len. simpl List.length.
    replace (index + 1 + Z.of_nat (List.length before) + 1)
      with (index + Z.of_nat (S (List.length before)) + 1) by lia.
    reflexivity.
Qed.

Lemma required_cols_differ_spec (cols : list string) :
  required_cols_differ cols = true
  <-> slice None (Some 5) cols <> VCF_REQUIRED_COLS.
Proof.
  unfold required_cols_differ.
  destruct (list_eq_dec string_dec _ _); split; congruence.
Qed.

Lemma slice_after_header (before : list string) (header : string)
  (rest : list string) :
  slice (Some (0 + len before + 1)) None (before ++ header :: rest) = rest.
Proof.
  rewrite slice_suffix.
  - replace (Z.to_nat (0 + len before + 1)) with (1 + List.length before)%nat
      by (unfold len; lia).
    rewrite <- skipn_skipn, skipn_app, skipn_all, Nat.sub_diag. reflexivity.
  - unfold len. rewrite length_app. simpl. lia.
Qed.

Lemma read_variant_line_columns (strand_index : option Z) (line : string)
  chrom pos_text name ref alt more pos :
  split tab (strip line) = chrom :: pos_text :: name :: ref :: alt :: more ->
  int pos_text = Ok pos ->
  read_variant_line strand_index line =
  (strand <- record_strand strand_index (split tab (strip line)) ;;
   match strand with
   | None => Ok []
   | Some strand =>
       Ok (expand chrom pos name (if (ref =? "-")%string then "" else ref)
             alt strand)
   end).
Proof.
  intros Hcols Hpos. unfold read_variant_line. rewrite Hcols.
  destruct (Z.ltb_spec
              (len (chrom :: pos_text :: name :: ref :: alt :: more)) 5)
    as [Hlt|_].
  { unfold len in Hlt. simpl in Hlt. lia. }
  rewrite (getitem_at _ 0 chrom), (getitem_at _ 1 pos_text),
    (getitem_at _ 2 name), (getitem_at _ 3 ref), (getitem_at _ 4 alt)
    by (lia || reflexivity).
  cbn [bind]. rewrite Hpos. reflexivity.
Qed.

(** C7 (amended): when every line before the first line that holds
    ["#CHROM"] holds ['#'], a column line whose first five columns are not
    the required ones raises [ValueError], and one that has them starts
    the records at the next line; a line with fewer than five columns adds
    nothing; a record whose ALT column is the comma-separated list of one
    or more alleles adds one variant per allele, in their order, all with
    its chrom, pos, id, ref and strand; and with a strand index the strand
    is ['-'] for ['-'], ['+'] for ['+'] and ['.'], and any other value
    skips the record. *)
Theorem read_vcf_file_spec (strand_index : option Z) :
  (forall before header rest,
     Forall comment_line before ->
     contains "#CHROM" header = true ->
     (slice None (Some 5) (split tab (strip header)) <> VCF_REQUIRED_COLS ->
      read_vcf_file (before ++ header :: rest) strand_index
      = Raise ValueError) /\
     (slice None (Some 5) (split tab (strip header)) = VCF_REQUIRED_COLS ->
      read_vcf_file (before ++ header :: rest) strand_index
      = read_variants strand_index rest [])) /\
  (forall line rest variants,
     len (split tab (strip line)) < 5 ->
     read_variants strand_index (line :: rest) variants
     = read_variants strand_index rest variants) /\
  (forall line rest variants chrom pos_text name ref alleles more pos,
     alleles <> [] ->
     Forall (fun a => contains_char "," a = false) alleles ->
     split tab (strip line)
     = chrom :: pos_text :: name :: ref :: String.concat "," alleles :: more ->
     int pos_text = Ok pos ->
     let ref' := if (ref =? "-")%string then "" else ref in
     let added strand :=
       (variants
        ++ map (fun a => (chrom, pos, name, ref', a, strand)) alleles)%list in
     (strand_index = None ->
      read_variants strand_index (line :: rest) variants
      = read_variants strand_index rest (added ".")) /\
     (forall i c,
        strand_index = Some i ->
        getitem (split tab (strip line)) i = Ok c ->
        (c = "-" ->
         read_variants strand_index (line :: rest) variants
         = read_variants strand_index rest (added "-")) /\
        (c = "+" \/ c = "." ->
         read_variants strand_index (line :: rest) variants
         = read_variants strand_index rest (added "+")) /\
        (c <> "-" -> c <> "+" -> c <> "." ->
         read_variants strand_index (line :: rest) variants
         = read_variants strand_index rest variants))).
Proof.
  split; [|split].
  - intros before header rest Hb Hh. unfold read_vcf_file.
    rewrite (scan_header_columns _ _ _ _ Hb Hh). split; intros Hcols.
    + apply required_cols_differ_spec in Hcols. now rewrite Hcols.
    + destruct (required_cols_differ _) eqn:Hd.
      * apply required_cols_differ_spec in Hd. contradiction.
      * cbn [bind]. now rewrite slice_after_header.
  - intros line rest variants Hshort. simpl. unfold read_variant_line.
    destruct (Z.ltb_spec (len (split tab (strip line))) 5); [|lia].
    cbn [bind]. now rewrite app_nil_r.
  - intros line rest variants chrom pos_text name ref alleles more pos
      Hne Hplain Hcols Hpos ref' added.
    simpl read_variants.
    rewrite (read_variant_line_columns strand_index line _ _ _ _ _ _ _
               Hcols Hpos).
    fold ref'. unfold expand.
    change (String.concat "," alleles)
      with (String.concat (String "," "") alleles).
    rewrite (split_join "," alleles Hne Hplain). split.
    + intros ->. reflexivity.
    + intros i c -> Hc. unfold record_strand. rewrite Hc. cbn [bind].
      split; [|split].
      * intros ->. reflexivity.
      * intros [-> | ->]; reflexivity.
      * intros H1 H2 H3.
        apply String.eqb_neq in H1, H2, H3. rewrite H1, H2, H3.
        cbn [orb bind]. now rewrite app_nil_r.
Qed.

(** ** Properties of [_handle_standard_ref] *)

Section Reconciler.

Variable reference_sequence : Sequence.

Lemma array_equal_spec (a b : list (row reference_sequence)) :
  reflect (a = b) (array_equal reference_sequence a b).
Proof.
  unfold array_equal. destruct (list_eq_dec _ a b); now constructor.
Qed.

(** What the slice assignment leaves when the slice is inside the array and
    as long as the value. *)
Lemma setitem_slice_inside {A} (lo : Z) (value a : list A) :
  0 <= lo -> lo + len value <= len a ->
  exists a',
    setitem_slice lo (lo + len value) value a = Ok a' /\
    len a' = len a /\
    slice (Some lo) (Some (lo + len value)) a' = value /\
    slice None (Some lo) a' = slice None (Some lo) a /\
    slice (Some (lo + len value)) None a'
    = slice (Some (lo + len value)) None a.
Proof.
  intros Hlo Hhi. pose proof (len_nonneg value) as Hv.
  unfold setitem_slice, norm_bound.
  destruct (Z.ltb_spec lo 0); [lia|].
  destruct (Z.ltb_spec (lo + len value) 0); [lia|].
  rewrite !Z.min_l by lia.
  replace (Z.max (lo + len value - lo) 0) with (len value) by lia.
  rewrite Z.eqb_refl. eexists. split; [reflexivity|].
  set (pre := firstn (Z.to_nat lo) a).
  set (post := skipn (Z.to_nat (lo + len value)) a).
  assert (Hpre : len pre = lo).
  { unfold pre, len in *. rewrite length_firstn. lia. }
  assert (Hpost : len post = len a - lo - len value).
  { unfold post, len in *. rewrite length_skipn. lia. }
  assert (Hlen : len (pre ++ value ++ post) = len a).
  { rewrite !len_app. lia. }
  assert (Hnat : Z.to_nat lo = List.length pre) by (unfold len in Hpre; lia).
  split; [exact Hlen|]. split; [|split].
  - rewrite slice_inside by lia.
    rewrite Hnat, skipn_app, skipn_all, Nat.sub_diag. simpl.
    replace (Z.to_nat (lo + len value - lo)) with (List.length value)
      by (unfold len; lia).
    rewrite firstn_app, firstn_all, Nat.sub_diag. simpl. apply app_nil_r.
  - rewrite !slice_prefix by lia.
    rewrite Hnat at 1. rewrite firstn_app, firstn_all, Nat.sub_diag. simpl.
    now rewrite app_nil_r.
  - rewrite !slice_suffix by lia. fold post.
    rewrite app_assoc.
    replace (Z.to_nat (lo + len value)) with (List.length (pre ++ value))
      by (rewrite length_app; unfold len in *; lia).
    rewrite skipn_app, skipn_all, Nat.sub_diag. reflexivity.
Qed.

(** C5: when the sub-window at the offset of [_get_ref_idxs] lies inside
    the window, a sub-window equal to the declared reference gives
    [matched = True] and the window as it was; a different sub-window gives
    [matched = False] and the window with that sub-window overwritten by the
    declared reference, the rest unchanged; the third value is in both
    cases the text of the sub-window as it was observed. *)
Theorem handle_standard_ref_spec
  (ref_encoding seq_encoding : list (row reference_sequence))
  (mid : Z) (strand : string) :
  let ref_len := len ref_encoding in
  let start_pos := fst (_get_ref_idxs mid strand ref_len) in
  let observed :=
    slice (Some start_pos) (Some (start_pos + ref_len)) seq_encoding in
  0 <= start_pos ->
  start_pos + ref_len <= len seq_encoding ->
  (observed = ref_encoding ->
   _handle_standard_ref reference_sequence ref_encoding seq_encoding mid strand
   = Ok (true, seq_encoding,
         encoding_to_sequence reference_sequence observed)) /\
  (observed <> ref_encoding ->
   exists window,
     _handle_standard_ref reference_sequence ref_encoding seq_encoding mid
       strand
     = Ok (false, window, encoding_to_sequence reference_sequence observed) /\
     len window = len seq_encoding /\
     slice (Some start_pos) (Some (start_pos + ref_len)) window
     = ref_encoding /\
     slice None (Some start_pos) window
     = slice None (Some start_pos) seq_encoding /\
     slice (Some (start_pos + ref_len)) None window
     = slice (Some (start_pos + ref_len)) None seq_encoding).
Proof.
  intros ref_len start_pos observed Hlo Hhi.
  unfold _handle_standard_ref. fold ref_len.
  destruct (_get_ref_idxs mid strand ref_len) as [s e] eqn:Hidx.
  simpl in start_pos. subst start_pos. fold observed.
  destruct (array_equal_spec observed ref_encoding) as [Heq|Hne];
    simpl negb; cbv iota.
  - split; [reflexivity | contradiction].
  - split; [contradiction|]. intros _.
    destruct (setitem_slice_inside s ref_encoding seq_encoding Hlo Hhi)
      as (w & Hset & Hlen & Hsub & Hpre & Hpost).
    fold ref_len in Hset, Hsub, Hpost.
    rewrite Hset. cbn [bind]. exists w. repeat split; assumption.
Qed.

End Reconciler.

(** ** Properties of [_process_alt] *)

Lemma truncate_far_end_length (sequence : string) (n : Z) :
  0 <= n <= str_len sequence -> str_len (truncate_far_end sequence n) = n.
Proof.
  intros H. unfold truncate_far_end.
  rewrite str_len_chars in *. rewrite chars_str_slice.
  rewrite slice_prefix by assumption.
  unfold len in *. rewrite length_firstn. lia.
Qed.

Section Builder.

Variable reference_sequence : Sequence.
Variable _truncate_sequence : string -> Z -> string.

(** What the callers rely on: truncation to a size within the sequence
    gives a sequence of that size. *)
Hypothesis truncate_length :
  forall sequence n,
    0 <= n <= str_len sequence -> str_len (_truncate_sequence sequence n) = n.

(** The spliced text [wt[:start] + alt + wt[stop:]] with both bounds inside
    the window. *)
Lemma splice_length (wt alt : string) (start stop : Z) :
  0 <= start <= stop -> stop <= str_len wt ->
  str_len (str_slice None (Some start) wt ++ alt
           ++ str_slice (Some stop) None wt)
  = str_len wt + str_len alt - (stop - start).
Proof.
  intros H1 H2. rewrite !str_len_chars in *.
  rewrite !chars_app, !chars_str_slice, !len_app.
  rewrite slice_prefix, slice_suffix by lia.
  unfold len in *. rewrite length_firstn, length_skipn. lia.
Qed.

Lemma get_ref_idxs_end (mid : Z) (strand : string) (ref_len : Z) :
  snd (_get_ref_idxs mid strand ref_len)
  = fst (_get_ref_idxs mid strand ref_len) + ref_len.
Proof. reflexivity. Qed.

(** C4: the text [_process_alt] encodes.  An alternate allele longer than
    the window is truncated to the window length; with the offsets of
    [_get_ref_idxs] inside the window, a substitution and an insertion both
    give a text as long as the window; and a variant whose alternate allele
    is its reference allele, found in the window at those offsets, gives
    the encoding of the window itself.  The alternate allele is [alt] as
    the function has it after its first statement, where a deletion marker
    has become the empty string. *)
Theorem process_alt_spec (chrom : string) (pos : Z) (ref alt : string)
  (start end_ : Z) (strand wt_sequence : string) (start_radius : Z) :
  let alt' := if deletion_marker alt then "" else alt in
  let window := str_len wt_sequence in
  let text := alt_sequence reference_sequence _truncate_sequence chrom pos
                ref alt start end_ strand wt_sequence start_radius in
  let start_pos := fst (_get_ref_idxs start_radius strand (str_len ref)) in
  let end_pos := snd (_get_ref_idxs start_radius strand (str_len ref)) in
  (window < str_len alt' ->
   text = _truncate_sequence alt' window /\ str_len text = window) /\
  (0 <= start_pos -> end_pos <= window ->
   (str_len ref = str_len alt' -> str_len text = window) /\
   (str_len ref < str_len alt' -> str_len text = window) /\
   (alt' = ref ->
    str_slice (Some start_pos) (Some end_pos) wt_sequence = ref ->
    _process_alt reference_sequence _truncate_sequence chrom pos ref alt
      start end_ strand wt_sequence start_radius
    = sequence_to_encoding reference_sequence wt_sequence)).
Proof.
  intros alt' window text start_pos end_pos.
  assert (Hend : end_pos = start_pos + str_len ref) by apply get_ref_idxs_end.
  assert (Hreflen : 0 <= str_len ref) by (unfold str_len; lia).
  assert (Hwin : 0 <= window) by (unfold window, str_len; lia).
  assert (Htext : text =
    if str_len alt' >? window then _truncate_sequence alt' window
    else if str_len ref =? str_len alt' then
      str_slice None (Some start_pos) wt_sequence ++ alt'
      ++ str_slice (Some end_pos) None wt_sequence
    else if str_len alt' >? str_len ref then
      _truncate_sequence
        (str_slice None (Some start_pos) wt_sequence ++ alt'
         ++ str_slice (Some (start_pos + str_len ref)) None wt_sequence)
        window
    else text).
  { unfold text, alt_sequence. fold alt'. fold window.
    unfold start_pos, end_pos.
    destruct (_get_ref_idxs start_radius strand (str_len ref)) as [s e].
    simpl fst; simpl snd.
    destruct (str_len alt' >? window); [reflexivity|].
    destruct (str_len ref =? str_len alt'); [reflexivity|].
    destruct (str_len alt' >? str_len ref); reflexivity. }
  split.
  - intros Hlong. rewrite Htext.
    destruct (Z.gtb_spec (str_len alt') window); [|lia].
    split; [reflexivity|]. apply truncate_length. lia.
  - intros Hlo Hhi.
    assert (Hsub : str_len ref = str_len alt' -> text =
              str_slice None (Some start_pos) wt_sequence ++ alt'
              ++ str_slice (Some end_pos) None wt_sequence).
    { intros E. rewrite Htext.
      destruct (Z.gtb_spec (str_len alt') window); [lia|].
      destruct (Z.eqb_spec (str_len ref) (str_len alt')); [reflexivity|lia]. }
    split; [|split].
    + intros E. rewrite (Hsub E), splice_length by (fold window; lia).
      fold window. lia.
    + intros Hins. rewrite Htext.
      destruct (Z.gtb_spec (str_len alt') window).
      * apply truncate_length. lia.
      * destruct (Z.eqb_spec (str_len ref) (str_len alt')); [lia|].
        destruct (Z.gtb_spec (str_len alt') (str_len ref)); [|lia].
        apply truncate_length.
        rewrite splice_length by (fold window; lia). fold window. lia.
    + intros Halt' Hfound.
      unfold _process_alt. f_equal. fold text.
      rewrite Hsub by (now rewrite Halt').
      rewrite Halt'. apply chars_inj.
      rewrite !chars_app, !chars_str_slice.
      replace (list_ascii_of_string ref)
        with (slice (Some start_pos) (Some end_pos)
                (list_ascii_of_string wt_sequence))
        by (rewrite <- chars_str_slice; now rewrite Hfound).
      apply slice_three_way. lia.
Qed.

End Builder.

(** ** The model on example inputs *)

Example get_ref_idxs_values :
  _get_ref_idxs 500 "+" 1 = (499, 500) /\
  _get_ref_idxs 500 "-" 1 = (500, 501) /\
  _get_ref_idxs 500 "+" 4 = (497, 501) /\
  _get_ref_idxs 500 "-" 4 = (499, 503) /\
  _get_ref_idxs 500 "." 4 = (500, 504).
Proof. repeat split. Qed.

(** A file with a comment line, the column line and four records, read
    with the strand in column 5: the second record is too short, the last
    has a strand that is none of ['-'], ['+'] and ['.']. *)
Example read_vcf_file_records :
  read_vcf_file
    ["##fileformat=VCFv4.2";
     tsv ["#CHROM"; "POS"; "ID"; "REF"; "ALT"; "STRAND"];
     tsv ["chr1"; "100"; "rs1"; "A"; "G,T"; "+"];
     tsv ["chr1"; "150"];
     tsv ["chr1"; "200"; "rs2"; "-"; "GG"; "-"];
     tsv ["chr2"; "300"; "rs3"; "C"; "*"; "?"]] (Some 5)
  = Ok [("chr1", 100, "rs1", "A", "G", "+");
        ("chr1", 100, "rs1", "A", "T", "+");
        ("chr1", 200, "rs2", "", "GG", "-")].
Proof. reflexivity. Qed.

(** Without a column line the last comment line is read as a record, and a
    position that is no integer raises. *)
Example read_vcf_file_no_columns :
  read_vcf_file ["##a"; "##b"] None = Ok [] /\
  read_vcf_file [tsv ["chr1"; "x"; "rs1"; "A"; "G"]] None = Raise ValueError.
Proof. split; reflexivity. Qed.

(** A substitution, an insertion, a deletion and an oversized allele in
    the window [CCCCACCCC], on the toy genome. *)
Example alt_sequence_cases :
  alt_sequence letters truncate_far_end "chr1" 100 "A" "G" 96 105 "+"
    "CCCCACCCC" 5 = "CCCCGCCCC" /\
  alt_sequence letters truncate_far_end "chr1" 100 "A" "GTT" 96 105 "+"
    "CCCCACCCC" 5 = "CCCCGTTCC" /\
  alt_sequence letters truncate_far_end "chr1" 100 "AC" "-" 96 105 "+"
    "CCCCACCCC" 5 = "NNNNNNNNN" /\
  alt_sequence letters truncate_far_end "chr1" 100 "A" "GGGGGGGGGGTT" 96 105
    "+" "CCCCACCCC" 5 = "GGGGGGGGG".
Proof. repeat split. Qed.

(** A sub-window that leaves the window: a reference of one row is
    broadcast over the empty slice, a longer one cannot be assigned. *)
Example handle_standard_ref_outside :
  _handle_standard_ref letters ["T"%char] (list_ascii_of_string "CCCC") 9 "+"
  = Ok (false, list_ascii_of_string "CCCC", "") /\
  _handle_standard_ref letters ["T"%char; "T"%char]
    (list_ascii_of_string "CCCC") 4 "-"
  = Raise ValueError.
Proof. split; reflexivity. Qed.

(** ** The claims on example inputs *)

Lemma read_vcf_file_spec_witness :
  read_vcf_file
    ["##fileformat=VCFv4.2"; tsv ["#CHROM"; "POS"; "ID"; "REF"];
     tsv ["chr1"; "100"; "rs1"; "A"; "G"]] (Some 5)
  = Raise ValueError /\
  read_variants (Some 5) [tsv ["chr1"; "100"; "rs1"; "A"; "G,T"; "+"]] []
  = Ok [("chr1", 100, "rs1", "A", "G", "+");
        ("chr1", 100, "rs1", "A", "T", "+")].
Proof.
  destruct (read_vcf_file_spec (Some 5)) as (Hheader & _ & Hrecord).
  split.
  - apply (Hheader ["##fileformat=VCFv4.2"]
             (tsv ["#CHROM"; "POS"; "ID"; "REF"])
             [tsv ["chr1"; "100"; "rs1"; "A"; "G"]]).
    + repeat constructor.
    + reflexivity.
    + vm_compute. discriminate.
  - destruct (Hrecord (tsv ["chr1"; "100"; "rs1"; "A"; "G,T"; "+"]) [] []
                "chr1" "100" "rs1" "A" ["G"; "T"] ["+"] 100
                ltac:(discriminate) ltac:(repeat constructor)
                eq_refl eq_refl)
      as [_ Hstrand].
    destruct (Hstrand 5 "+" eq_refl eq_refl) as (_ & Hplus & _).
    exact (Hplus (or_introl eq_refl)).
Defined.

(** C7 (counterexample): a file that starts with a blank line.  The
    header scan stops at once, the column line, which has four columns
    and not the required five, is read as a line of the records and
    skipped as too short, and the read returns no variant and raises
    nothing. *)
Lemma read_vcf_file_header_counterexample :
  let header := tsv ["#CHROM"; "POS"; "ID"; "REF"] in
  let lines := [String "010" ""; header;
                tsv ["chr1"; "100"; "rs1"; "A"; "G"]] in
  contains "#CHROM" header = true /\
  slice None (Some 5) (split tab (strip header)) <> VCF_REQUIRED_COLS /\
  read_vcf_file lines None = Ok [("chr1", 100, "rs1", "A", "G", ".")].
Proof.
  cbv zeta. split; [reflexivity|]. split; [|reflexivity].
  vm_compute. discriminate.
Qed.

Lemma handle_standard_ref_spec_witness :
  _handle_standard_ref letters ["A"%char] (list_ascii_of_string "CCCCACCCC")
    5 "+"
  = Ok (true, list_ascii_of_string "CCCCACCCC", "A") /\
  exists window,
    _handle_standard_ref letters ["A"%char]
      (list_ascii_of_string "CCCCTCCCC") 5 "+"
    = Ok (false, window, "T") /\
    window = list_ascii_of_string "CCCCACCCC".
Proof.
  split.
  - exact (proj1 (handle_standard_ref_spec letters ["A"%char]
                    (list_ascii_of_string "CCCCACCCC") 5 "+"
                    ltac:(vm_compute; discriminate)
                    ltac:(vm_compute; discriminate)) eq_refl).
  - destruct (proj2 (handle_standard_ref_spec letters ["A"%char]
                       (list_ascii_of_string "CCCCTCCCC") 5 "+"
                       ltac:(vm_compute; discriminate)
                       ltac:(vm_compute; discriminate))
                ltac:(vm_compute; discriminate))
      as (window & Hcall & _).
    exists window. split; [exact Hcall|].
    vm_compute in Hcall. now inversion Hcall.
Defined.

Lemma process_alt_spec_witness :
  str_len (alt_sequence letters truncate_far_end "chr1" 100 "A" "GTT" 96 105
             "+" "CCCCACCCC" 5) = 9 /\
  _process_alt letters truncate_far_end "chr1" 100 "A" "A" 96 105 "+"
    "CCCCACCCC" 5
  = sequence_to_encoding letters "CCCCACCCC".
Proof.
  split.
  - destruct (process_alt_spec letters truncate_far_end
                truncate_far_end_length "chr1" 100 "A" "GTT" 96 105 "+"
                "CCCCACCCC" 5) as [_ H].
    destruct (H ltac:(vm_compute; discriminate)
                ltac:(vm_compute; discriminate)) as (_ & Hinsertion & _).
    exact (Hinsertion eq_refl).
  - destruct (process_alt_spec letters truncate_far_end
                truncate_far_end_length "chr1" 100 "A" "A" 96 105 "+"
                "CCCCACCCC" 5) as [_ H].
    destruct (H ltac:(vm_compute; discriminate)
                ltac:(vm_compute; discriminate)) as (_ & _ & Hsame).
    exact (Hsame eq_refl eq_refl).
Defined.

(* ------------------------------------------------------------------ *)
(** ** Further properties of the variant module *)
(* ------------------------------------------------------------------ *)

(** *** [_get_ref_idxs] *)

(** The sub-window is anchored on the centre of the window: on the
    forward strand the base at index [mid - 1] lies [ref_len // 2] bases
    into the sub-window, on the reverse strand the base at index [mid] lies
    [(ref_len - 1) // 2] bases into it, so a sub-window of a base or more
    always holds that base. *)
Theorem get_ref_idxs_anchor (mid ref_len : Z) :
  1 <= ref_len ->
  let forward := _get_ref_idxs mid "+" ref_len in
  let reverse := _get_ref_idxs mid "-" ref_len in
  (mid - 1) - fst forward = ref_len / 2 /\
  fst forward <= mid - 1 < snd forward /\
  mid - fst reverse = (ref_len - 1) / 2 /\
  fst reverse <= mid < snd reverse.
Proof.
  intros Hlen. unfold _get_ref_idxs. cbn [String.eqb Ascii.eqb Bool.eqb andb fst snd].
  pose proof (Z.div_mod ref_len 2 ltac:(lia)) as H1.
  pose proof (Z.mod_pos_bound ref_len 2 ltac:(lia)) as H2.
  pose proof (Z.div_mod (ref_len + 1) 2 ltac:(lia)) as H3.
  pose proof (Z.mod_pos_bound (ref_len + 1) 2 ltac:(lia)) as H4.
  pose proof (Z.div_mod (ref_len - 1) 2 ltac:(lia)) as H5.
  pose proof (Z.mod_pos_bound (ref_len - 1) 2 ltac:(lia)) as H6.
  destruct (Z.eqb_spec ref_len 1) as [E|Hne];
    destruct (Z.gtb_spec ref_len 1); cbn [fst snd]; lia.
Qed.

Lemma get_ref_idxs_anchor_witness :
  (5 - 1) - fst (_get_ref_idxs 5 "+" 4) = 2 /\
  5 - fst (_get_ref_idxs 5 "-" 4) = 1.
Proof.
  destruct (get_ref_idxs_anchor 5 4 ltac:(lia)) as (Hf & _ & Hr & _).
  split; [exact Hf | exact Hr].
Defined.

(** *** Splicing and slice assignment *)

(** A list with the rows from [lo] on replaced by [value], where the
    replaced stretch lies inside the list. *)
Lemma splice_slices {A} (lo k : Z) (value l : list A) :
  0 <= lo -> 0 <= k -> lo + k <= len l ->
  let spliced :=
    (firstn (Z.to_nat lo) l ++ value ++ skipn (Z.to_nat (lo + k)) l)%list in
  len spliced = len l - k + len value /\
  slice None (Some lo) spliced = firstn (Z.to_nat lo) l /\
  slice (Some lo) (Some (lo + len value)) spliced = value /\
  slice (Some (lo + len value)) None spliced = skipn (Z.to_nat (lo + k)) l.
Proof.
  intros Hlo Hk Hhi spliced. subst spliced.
  pose proof (len_nonneg value) as Hv.
  set (pre := firstn (Z.to_nat lo) l).
  set (post := skipn (Z.to_nat (lo + k)) l).
  assert (Hpre : len pre = lo).
  { unfold pre, len in *. rewrite length_firstn. lia. }
  assert (Hpost : len post = len l - lo - k).
  { unfold post, len in *. rewrite length_skipn. lia. }
  assert (Hlen : len (pre ++ value ++ post)%list = len l - k + len value).
  { rewrite !len_app. lia. }
  assert (Hnat : Z.to_nat lo = List.length pre) by (unfold len in Hpre; lia).
  split; [exact Hlen|]. split; [|split].
  - rewrite slice_prefix by lia.
    rewrite Hnat, firstn_app, firstn_all, Nat.sub_diag. simpl.
    apply app_nil_r.
  - rewrite slice_inside by lia.
    rewrite Hnat, skipn_app, skipn_all, Nat.sub_diag. simpl.
    replace (Z.to_nat (lo + len value - lo)) with (List.length value)
      by (unfold len; lia).
    rewrite firstn_app, firstn_all, Nat.sub_diag. simpl. apply app_nil_r.
  - rewrite slice_suffix by lia.
    rewrite app_assoc.
    replace (Z.to_nat (lo + len value)) with (List.length (pre ++ value))
      by (rewrite length_app; unfold len in *; lia).
    rewrite skipn_app, skipn_all, Nat.sub_diag. reflexivity.
Qed.

Lemma norm_bound_range (n i : Z) : 0 <= n -> 0 <= norm_bound n i <= n.
Proof. unfold norm_bound. destruct (Z.ltb_spec i 0); lia. Qed.

Lemma slice_len {A} (lo hi : Z) (l : list A) :
  len (slice (Some lo) (Some hi) l)
  = Z.max (norm_bound (len l) hi - norm_bound (len l) lo) 0.
Proof.
  pose proof (norm_bound_range (len l) lo (len_nonneg l)).
  pose proof (norm_bound_range (len l) hi (len_nonneg l)).
  unfold slice, len in *. rewrite length_firstn, length_skipn. lia.
Qed.

(** A slice assignment that raises nothing leaves the number of rows. *)
Lemma setitem_slice_len {A} (lo hi : Z) (value a a' : list A) :
  setitem_slice lo hi value a = Ok a' -> len a' = len a.
Proof.
  pose proof (norm_bound_range (len a) lo (len_nonneg a)) as Hlo.
  pose proof (norm_bound_range (len a) hi (len_nonneg a)) as Hhi.
  unfold setitem_slice.
  set (lo' := norm_bound (len a) lo) in *.
  set (hi' := norm_bound (len a) hi) in *.
  set (k := Z.max (hi' - lo') 0).
  assert (Hw : forall rows, len rows = k ->
            len (firstn (Z.to_nat lo') a ++ rows
                 ++ skipn (Z.to_nat (lo' + k)) a)%list = len a).
  { intros rows Hr. rewrite !len_app. unfold len in *.
    rewrite length_firstn, length_skipn. lia. }
  destruct (Z.eqb_spec (len value) k) as [E|_].
  - intros H; inversion H; subst. now apply Hw.
  - destruct value as [|v [|]]; try discriminate.
    intros H; inversion H; subst. apply Hw.
    unfold len. rewrite repeat_length. lia.
Qed.

(** *** [_handle_standard_ref] and [_handle_long_ref] *)

Section Windows.

Variable reference_sequence : Sequence.

(** Whatever the offsets, a call of [_handle_standard_ref] that raises
    nothing returns a window with as many rows as it was given, and the
    text of the sub-window it observed. *)
Theorem handle_standard_ref_rows
  (ref_encoding seq_encoding window : list (row reference_sequence))
  (mid : Z) (strand : string) (matched : bool) (text : string) :
  _handle_standard_ref reference_sequence ref_encoding seq_encoding mid strand
  = Ok (matched, window, text) ->
  len window = len seq_encoding /\
  (matched = true -> window = seq_encoding) /\
  let start_pos := fst (_get_ref_idxs mid strand (len ref_encoding)) in
  text = encoding_to_sequence reference_sequence
           (slice (Some start_pos) (Some (start_pos + len ref_encoding))
              seq_encoding).
Proof.
  unfold _handle_standard_ref.
  destruct (_get_ref_idxs mid strand (len ref_encoding)) as [s e].
  cbn [fst].
  destruct (array_equal _ _ _); cbn [negb].
  - intros H; inversion H; subst. auto.
  - destruct (setitem_slice _ _ _ _) as [w|] eqn:Hset; cbn [bind];
      [|discriminate].
    intros H; inversion H; subst.
    split; [exact (setitem_slice_len _ _ _ _ _ Hset)|].
    split; [discriminate | reflexivity].
Qed.

(** A sub-window that the window cuts short cannot be overwritten: when it
    has not as many rows as a reference of two rows or more, the slice
    assignment raises [ValueError]. *)
Theorem handle_standard_ref_cut_short
  (ref_encoding seq_encoding : list (row reference_sequence))
  (mid : Z) (strand : string) :
  let ref_len := len ref_encoding in
  let start_pos := fst (_get_ref_idxs mid strand ref_len) in
  len (slice (Some start_pos) (Some (start_pos + ref_len)) seq_encoding)
  <> ref_len ->
  2 <= ref_len ->
  _handle_standard_ref reference_sequence ref_encoding seq_encoding mid strand
  = Raise ValueError.
Proof.
  intros ref_len start_pos Hcut Hlong.
  unfold _handle_standard_ref. fold ref_len.
  destruct (_get_ref_idxs mid strand ref_len) as [s e].
  cbn [fst] in start_pos. subst start_pos.
  destruct (array_equal_spec reference_sequence
              (slice (Some s) (Some (s + ref_len)) seq_encoding) ref_encoding)
    as [E|_]; cbn [negb].
  { rewrite E in Hcut. now elim Hcut. }
  rewrite slice_len in Hcut. unfold setitem_slice.
  destruct (Z.eqb_spec (len ref_encoding)
              (Z.max (norm_bound (len seq_encoding) (s + ref_len)
                      - norm_bound (len seq_encoding) s) 0)) as [E|_].
  { fold ref_len in E. lia. }
  subst ref_len.
  destruct ref_encoding as [|v [|v' rest]]; try reflexivity;
    unfold len in Hlong; simpl in Hlong; lia.
Qed.

(** Reconciling twice changes nothing more: on the window a first call
    returned, for a sub-window inside the window, the second call finds the
    declared reference and returns the window as it is. *)
Theorem handle_standard_ref_again
  (ref_encoding seq_encoding window : list (row reference_sequence))
  (mid : Z) (strand : string) (matched : bool) (text : string) :
  let ref_len := len ref_encoding in
  let start_pos := fst (_get_ref_idxs mid strand ref_len) in
  0 <= start_pos ->
  start_pos + ref_len <= len seq_encoding ->
  _handle_standard_ref reference_sequence ref_encoding seq_encoding mid strand
  = Ok (matched, window, text) ->
  _handle_standard_ref reference_sequence ref_encoding window mid strand
  = Ok (true, window, encoding_to_sequence reference_sequence ref_encoding).
Proof.
  intros ref_len start_pos Hlo Hhi.
  unfold _handle_standard_ref. fold ref_len.
  destruct (_get_ref_idxs mid strand ref_len) as [s e].
  cbn [fst] in start_pos. subst start_pos.
  assert (Hdone : forall w,
            slice (Some s) (Some (s + ref_len)) w = ref_encoding ->
            (if negb (array_equal reference_sequence
                        (slice (Some s) (Some (s + ref_len)) w) ref_encoding)
             then
               seq_encoding0 <- setitem_slice s (s + ref_len) ref_encoding w ;;
               Ok (array_equal reference_sequence
                     (slice (Some s) (Some (s + ref_len)) w) ref_encoding,
                   seq_encoding0,
                   encoding_to_sequence reference_sequence
                     (slice (Some s) (Some (s + ref_len)) w))
             else
               Ok (array_equal reference_sequence
                     (slice (Some s) (Some (s + ref_len)) w) ref_encoding,
                   w,
                   encoding_to_sequence reference_sequence
                     (slice (Some s) (Some (s + ref_len)) w)))
            = Ok (true, w,
                  encoding_to_sequence reference_sequence ref_encoding)).
  { intros w Hw. rewrite Hw.
    destruct (array_equal_spec reference_sequence ref_encoding ref_encoding)
      as [_|Hne]; [reflexivity | now elim Hne]. }
  destruct (array_equal_spec reference_sequence
              (slice (Some s) (Some (s + ref_len)) seq_encoding) ref_encoding)
    as [E|_]; cbn [negb].
  - intros H; injection H as _ Hw _. rewrite <- Hw. now apply Hdone.
  - destruct (setitem_slice_inside s ref_encoding seq_encoding Hlo Hhi)
      as (w & Hset & _ & Hsub & _).
    fold ref_len in Hset, Hsub. rewrite Hset. cbn [bind].
    intros H; injection H as _ Hw _. rewrite <- Hw. now apply Hdone.
Qed.

(** [_handle_long_ref] returns the centre of the reference whatever
    window it is given: rows [ref_len // 2 - start_radius] to
    [ref_len // 2 + end_radius], one row earlier when [reverse] is false.
    The flag tells whether the window was that centre already, and the
    text is that of the window as given.  When the bounds lie inside the
    reference the centre has [start_radius + end_radius] rows. *)
Theorem handle_long_ref_centre
  (ref_encoding seq_encoding : list (row reference_sequence))
  (start_radius end_radius : Z) (reverse : bool) :
  let shift := if reverse then 0 else 1 in
  let ref_start := len ref_encoding / 2 - start_radius - shift in
  let ref_end := len ref_encoding / 2 + end_radius - shift in
  let centre := slice (Some ref_start) (Some ref_end) ref_encoding in
  _handle_long_ref reference_sequence ref_encoding seq_encoding start_radius
    end_radius reverse
  = (array_equal reference_sequence seq_encoding centre, centre,
     encoding_to_sequence reference_sequence seq_encoding) /\
  (array_equal reference_sequence seq_encoding centre = true
   <-> seq_encoding = centre) /\
  (0 <= ref_start <= ref_end -> ref_end <= len ref_encoding ->
   len centre = start_radius + end_radius).
Proof.
  intros shift ref_start ref_end centre. split; [|split].
  - unfold _handle_long_ref.
    replace (if negb reverse then len ref_encoding / 2 - start_radius - 1
             else len ref_encoding / 2 - start_radius) with ref_start
      by (unfold ref_start, shift; destruct reverse; simpl; lia).
    replace (if negb reverse then len ref_encoding / 2 + end_radius - 1
             else len ref_encoding / 2 + end_radius) with ref_end
      by (unfold ref_end, shift; destruct reverse; simpl; lia).
    fold centre.
    destruct (array_equal_spec reference_sequence seq_encoding centre)
      as [E|_]; cbn [negb]; [now rewrite E | reflexivity].
  - destruct (array_equal_spec reference_sequence seq_encoding centre);
      split; congruence.
  - intros H1 H2. unfold centre. rewrite slice_len.
    unfold norm_bound.
    destruct (Z.ltb_spec ref_start 0); [lia|].
    destruct (Z.ltb_spec ref_end 0); [lia|].
    unfold ref_start, ref_end in *. lia.
Qed.

End Windows.

(** *** [_process_alt] *)

Section Texts.

Variable reference_sequence : Sequence.
Variable _truncate_sequence : string -> Z -> string.

(** A substitution touches the sub-window only: with the offsets of
    [_get_ref_idxs] inside the window, the text before the sub-window and
    the text after it are those of the window, and the sub-window holds
    the alternate allele. *)
Theorem process_alt_substitution (chrom : string) (pos : Z)
  (ref alt : string) (start end_ : Z) (strand wt_sequence : string)
  (start_radius : Z) :
  let alt' := if deletion_marker alt then "" else alt in
  let text := alt_sequence reference_sequence _truncate_sequence chrom pos
                ref alt start end_ strand wt_sequence start_radius in
  let start_pos := fst (_get_ref_idxs start_radius strand (str_len ref)) in
  let end_pos := snd (_get_ref_idxs start_radius strand (str_len ref)) in
  str_len ref = str_len alt' ->
  0 <= start_pos ->
  end_pos <= str_len wt_sequence ->
  str_slice None (Some start_pos) text
  = str_slice None (Some start_pos) wt_sequence /\
  str_slice (Some start_pos) (Some end_pos) text = alt' /\
  str_slice (Some end_pos) None text
  = str_slice (Some end_pos) None wt_sequence.
Proof.
  intros alt' text start_pos end_pos Hsub Hlo Hhi.
  assert (Hend : end_pos = start_pos + str_len ref) by reflexivity.
  assert (Hreflen : 0 <= str_len ref) by (unfold str_len; lia).
  assert (Htext : text =
            str_slice None (Some start_pos) wt_sequence ++ alt'
            ++ str_slice (Some end_pos) None wt_sequence).
  { unfold text, alt_sequence. fold alt'.
    unfold start_pos, end_pos.
    destruct (_get_ref_idxs start_radius strand (str_len ref)) as [s e].
    cbn [fst snd].
    destruct (Z.gtb_spec (str_len alt') (str_len wt_sequence)); [lia|].
    destruct (Z.eqb_spec (str_len ref) (str_len alt')); [reflexivity | lia]. }
  rewrite str_len_chars in Hhi, Hsub, Hend.
  set (wt := list_ascii_of_string wt_sequence) in *.
  set (k := len (list_ascii_of_string ref)) in *.
  assert (Hk : 0 <= k) by (unfold k, len; lia).
  assert (Hchars : list_ascii_of_string text =
            (firstn (Z.to_nat start_pos) wt ++ list_ascii_of_string alt'
             ++ skipn (Z.to_nat (start_pos + k)) wt)%list).
  { rewrite Htext, !chars_app, !chars_str_slice. fold wt.
    rewrite slice_prefix, slice_suffix by lia. now rewrite Hend. }
  rewrite str_len_chars in Hsub.
  destruct (splice_slices start_pos k (list_ascii_of_string alt') wt)
    as (_ & Hpre & Hmid & Hpost); [lia | lia | lia |].
  rewrite <- Hchars in Hpre, Hmid, Hpost. rewrite <- Hsub in Hmid, Hpost.
  repeat split; apply chars_inj; rewrite !chars_str_slice; fold wt.
  - rewrite Hpre. symmetry. apply slice_prefix. lia.
  - rewrite Hend. exact Hmid.
  - rewrite Hend, Hpost. symmetry. apply slice_suffix. lia.
Qed.

(** A genome that pads its answers returns as many bases as the
    coordinates span. *)
Hypothesis padded :
  forall chrom start end_ strand,
    start <= end_ ->
    str_len (get_sequence_from_coords reference_sequence chrom start end_
               strand true) = end_ - start.

(** A deletion keeps the length too: the two flanks are asked of the
    genome with coordinates widened by what the deletion removes, so with
    a genome that pads its answers the text has [end - start] bases. *)
Theorem process_alt_deletion_length (chrom : string) (pos : Z)
  (ref alt : string) (start end_ : Z) (strand wt_sequence : string)
  (start_radius : Z) :
  let alt' := if deletion_marker alt then "" else alt in
  let ref_len := str_len ref in
  let alt_len := str_len alt' in
  alt_len <= str_len wt_sequence ->
  alt_len < ref_len ->
  start - ref_len / 2 + alt_len / 2 <= pos + 1 ->
  pos + 1 + ref_len <= end_ + (ref_len + 1) / 2 - (alt_len + 1) / 2 ->
  str_len (alt_sequence reference_sequence _truncate_sequence chrom pos
             ref alt start end_ strand wt_sequence start_radius)
  = end_ - start.
Proof.
  intros alt' ref_len alt_len Hfit Hdel Hleft Hright.
  unfold alt_sequence. fold alt'. fold ref_len. fold alt_len.
  destruct (Z.gtb_spec alt_len (str_len wt_sequence)); [lia|].
  destruct (Z.eqb_spec ref_len alt_len); [lia|].
  destruct (Z.gtb_spec alt_len ref_len); [lia|].
  rewrite !Qceiling_half.
  set (lhs := get_sequence_from_coords reference_sequence chrom
                (start - ref_len / 2 + alt_len / 2) (pos + 1) strand true).
  set (rhs := get_sequence_from_coords reference_sequence chrom
                (pos + 1 + ref_len)
                (end_ + (ref_len + 1) / 2 - (alt_len + 1) / 2) strand true).
  assert (Hl : str_len lhs = pos + 1 - (start - ref_len / 2 + alt_len / 2))
    by (apply padded; lia).
  assert (Hr : str_len rhs
               = end_ + (ref_len + 1) / 2 - (alt_len + 1) / 2
                 - (pos + 1 + ref_len))
    by (apply padded; lia).
  assert (Happ : forall a b c : string,
            str_len (a ++ b ++ c) = str_len a + str_len b + str_len c).
  { intros a b c. rewrite !str_len_chars, !chars_app, !len_app. lia. }
  assert (Hhalf : forall m, m / 2 + (m + 1) / 2 = m).
  { intros m.
    pose proof (Z.div_mod m 2 ltac:(lia)).
    pose proof (Z.mod_pos_bound m 2 ltac:(lia)).
    pose proof (Z.div_mod (m + 1) 2 ltac:(lia)).
    pose proof (Z.mod_pos_bound (m + 1) 2 ltac:(lia)). lia. }
  pose proof (Hhalf ref_len). pose proof (Hhalf alt_len).
  fold alt_len in Hl, Hr.
  destruct (strand =? "-")%string; rewrite Happ; fold alt_len; lia.
Qed.

End Texts.

Lemma letters_padded (chrom : string) (start end_ : Z) (strand : string) :
  start <= end_ ->
  str_len (get_sequence_from_coords letters chrom start end_ strand true)
  = end_ - start.
Proof.
  intros H. simpl. rewrite str_len_chars, list_ascii_of_string_of_list_ascii.
  unfold len. rewrite repeat_length. lia.
Qed.

(** *** [read_vcf_file] *)

Lemma scan_header_data (before : list string) (line : string)
  (rest : list string) (index : Z) :
  Forall comment_line before ->
  contains_char "#" line = false ->
  scan_header (before ++ line :: rest) index = Ok (index + len before).
Proof.
  intros Hb Hl. revert index.
  induction Hb as [|c before [Hc Hn] _ IH]; intros index.
  - simpl. rewrite Hl. simpl. unfold len. simpl. now rewrite Z.add_0_r.
  - change ((c :: before) ++ line :: rest)%list
      with (c :: (before ++ line :: rest))%list.
    simpl scan_header. rewrite Hc, Hn. simpl negb. cbv iota.
    destruct (before ++ line :: rest)%list as [|l ls] eqn:E.
    { destruct before; discriminate. }
    rewrite IH. unfold len. simpl List.length. f_equal. lia.
Qed.

Lemma scan_header_exhausted (before : list string) (last : string)
  (index : Z) :
  Forall comment_line (before ++ [last]) ->
  scan_header (before ++ [last]) index = Ok (index + len before).
Proof.
  revert index. induction before as [|c before IH]; intros index Hb.
  - inversion Hb as [|? ? [Hc Hn] _]; subst. simpl. rewrite Hc, Hn. simpl.
    unfold len. simpl. now rewrite Z.add_0_r.
  - change ((c :: before) ++ [last])%list
      with (c :: (before ++ [last]))%list in *.
    inversion Hb as [|? ? [Hc Hn] Hrest]; subst.
    simpl scan_header. rewrite Hc, Hn. simpl negb. cbv iota.
    destruct (before ++ [last])%list as [|l ls] eqn:E.
    { destruct before; discriminate. }
    rewrite (IH _ Hrest). unfold len. simpl List.length. f_equal. lia.
Qed.

Lemma slice_from {A} (before rest : list A) :
  slice (Some (0 + len before)) None (before ++ rest) = rest.
Proof.
  rewrite slice_suffix by (rewrite len_app; pose proof (len_nonneg rest);
                           pose proof (len_nonneg before); lia).
  replace (Z.to_nat (0 + len before)) with (List.length before)
    by (unfold len; lia).
  now rewrite skipn_app, skipn_all, Nat.sub_diag.
Qed.

(** Where the records start when the file has no column line.  After the
    leading comment lines the first line without ['#'] is the first record;
    and when every line of the file is a comment line, the loop over the
    header runs out with the index on the last line, which is then read as
    a record. *)
Theorem read_vcf_file_without_columns (strand_index : option Z)
  (before : list string) :
  Forall comment_line before ->
  (forall line rest,
     contains_char "#" line = false ->
     read_vcf_file (before ++ line :: rest) strand_index
     = read_variants strand_index (line :: rest) []) /\
  (forall last,
     comment_line last ->
     read_vcf_file (before ++ [last]) strand_index
     = read_variants strand_index [last] []).
Proof.
  intros Hb. split.
  - intros line rest Hl. unfold read_vcf_file.
    rewrite (scan_header_data _ _ _ _ Hb Hl). cbn [bind].
    now rewrite slice_from.
  - intros last Hl. unfold read_vcf_file.
    rewrite scan_header_exhausted
      by (apply Forall_app; split; [assumption | now constructor]).
    cbn [bind]. now rewrite slice_from.
Qed.

(** What holds of every variant of the result: the reference allele is
    never ['-'], the alternate allele holds no comma, and the strand is
    ['.'] without a strand index, ['+'] or ['-'] with one. *)
Definition well_formed (strand_index : option Z) (v : variant) : Prop :=
  let '(chrom, pos, name, ref, alt, strand) := v in
  ref <> "-" /\
  contains_char "," alt = false /\
  match strand_index with
  | None => strand = "."
  | Some _ => strand = "+" \/ strand = "-"
  end.

Lemma expand_well_formed (strand_index : option Z) chrom pos name ref alt
  strand :
  ref <> "-" ->
  match strand_index with
  | None => strand = "."
  | Some _ => strand = "+" \/ strand = "-"
  end ->
  Forall (well_formed strand_index) (expand chrom pos name ref alt strand).
Proof.
  intros Hr Hs. unfold expand. rewrite Forall_map.
  eapply Forall_impl; [|apply split_fields].
  intros a Ha. simpl. auto.
Qed.

Lemma read_variant_line_well_formed (strand_index : option Z) (line : string)
  (added : list variant) :
  read_variant_line strand_index line = Ok added ->
  Forall (well_formed strand_index) added.
Proof.
  unfold read_variant_line.
  destruct (_ <? 5); [intros H; inversion H; constructor|].
  destruct (getitem _ 0) as [chrom|]; cbn [bind]; [|discriminate].
  destruct (getitem _ 1) as [pos_text|]; cbn [bind]; [|discriminate].
  destruct (int pos_text) as [pos|]; cbn [bind]; [|discriminate].
  destruct (getitem _ 2) as [name|]; cbn [bind]; [|discriminate].
  destruct (getitem _ 3) as [ref|]; cbn [bind]; [|discriminate].
  destruct (getitem _ 4) as [alt|]; cbn [bind]; [|discriminate].
  assert (Href : (if (ref =? "-")%string then "" else ref) <> "-").
  { destruct (String.eqb_spec ref "-"); [discriminate | assumption]. }
  unfold record_strand. destruct strand_index as [i|]; cbn [bind].
  - destruct (getitem _ i) as [c|]; cbn [bind]; [|discriminate].
    destruct (c =? "-")%string.
    + intros H; inversion H. apply expand_well_formed; auto.
    + destruct ((c =? "+")%string || (c =? ".")%string);
        intros H; inversion H; [|constructor].
      apply expand_well_formed; auto.
  - intros H; inversion H. apply expand_well_formed; auto.
Qed.

Lemma read_variants_well_formed (strand_index : option Z)
  (lines : list string) :
  forall variants result,
    read_variants strand_index lines variants = Ok result ->
    Forall (well_formed strand_index) variants ->
    Forall (well_formed strand_index) result.
Proof.
  induction lines as [|line lines IH]; simpl; intros variants result H Hv.
  - now inversion H; subst.
  - destruct (read_variant_line strand_index line) as [added|] eqn:Hl;
      cbn [bind] in H; [|discriminate].
    apply (IH _ _ H). apply Forall_app. split; [assumption|].
    exact (read_variant_line_well_formed _ _ _ Hl).
Qed.

Theorem read_vcf_file_well_formed (lines : list string)
  (strand_index : option Z) (variants : list variant) :
  read_vcf_file lines strand_index = Ok variants ->
  Forall (well_formed strand_index) variants.
Proof.
  unfold read_vcf_file.
  destruct (scan_header lines 0) as [index|]; cbn [bind]; [|discriminate].
  intros H. apply (read_variants_well_formed _ _ _ _ H). constructor.
Qed.

(** The second loop line by line: the result is what the lines add, in
    the order of the file, after the variants read so far; and the first
    line that raises ends the read with its exception, whatever was read
    before it. *)
Theorem read_variants_by_line (strand_index : option Z)
  (lines : list string) (parts : list (list variant)) :
  Forall2 (fun line added => read_variant_line strand_index line = Ok added)
    lines parts ->
  (forall variants,
     read_variants strand_index lines variants
     = Ok (variants ++ List.concat parts)%list) /\
  (forall line rest e variants,
     read_variant_line strand_index line = Raise e ->
     read_variants strand_index (lines ++ line :: rest) variants = Raise e).
Proof.
  induction 1 as [|line added lines parts Hl _ [IHok IHerr]]; split.
  - intros variants. simpl. now rewrite app_nil_r.
  - intros line rest e variants He. simpl. now rewrite He.
  - intros variants. simpl. rewrite Hl. cbn [bind].
    rewrite IHok. now rewrite app_assoc.
  - intros line' rest e variants He. simpl. rewrite Hl. cbn [bind].
    now apply IHerr.
Qed.

(** A record of five columns or more whose position is no integer raises
    [ValueError]; with a position that reads, a strand index outside the
    columns raises [IndexError]. *)
Theorem read_variant_line_raises (strand_index : option Z) (line : string) :
  let cols := split tab (strip line) in
  5 <= len cols ->
  (forall pos_text,
     getitem cols 1 = Ok pos_text -> int pos_text = Raise ValueError ->
     read_variant_line strand_index line = Raise ValueError) /\
  (forall pos_text pos i,
     getitem cols 1 = Ok pos_text -> int pos_text = Ok pos ->
     strand_index = Some i -> ~ (- len cols <= i < len cols) ->
     read_variant_line strand_index line = Raise IndexError).
Proof.
  intros cols Hcols. unfold read_variant_line. fold cols.
  destruct (Z.ltb_spec (len cols) 5); [lia|].
  assert (Hget : forall i, 0 <= i < 5 -> exists c, getitem cols i = Ok c).
  { intros i Hi. apply getitem_in_range. unfold in_range. lia. }
  destruct (Hget 0 ltac:(lia)) as [chrom ->].
  destruct (Hget 2 ltac:(lia)) as [name Hname].
  destruct (Hget 3 ltac:(lia)) as [ref Href].
  destruct (Hget 4 ltac:(lia)) as [alt Halt].
  split.
  - intros pos_text -> Hint. cbn [bind]. now rewrite Hint.
  - intros pos_text pos i -> Hint -> Hout. cbn [bind].
    rewrite Hint. cbn [bind]. rewrite Hname. cbn [bind].
    rewrite Href. cbn [bind]. rewrite Halt. cbn [bind].
    unfold record_strand, getitem. fold cols.
    destruct (Z.ltb_spec i 0);
      [destruct (Z.leb_spec 0 (i + len cols))
      | destruct (Z.leb_spec 0 i)];
      [destruct (Z.ltb_spec (i + len cols) (len cols))
      | | destruct (Z.ltb_spec i (len cols)) |];
      try reflexivity; lia.
Qed.

(** *** The further properties on example inputs *)

(** A reference of eight rows against a window of four, two bases on
    either side of the centre. *)
Example handle_long_ref_cases :
  _handle_long_ref letters (list_ascii_of_string "AACCGGTT")
    (list_ascii_of_string "CCGG") 2 2 true
  = (true, list_ascii_of_string "CCGG", "CCGG") /\
  _handle_long_ref letters (list_ascii_of_string "AACCGGTT")
    (list_ascii_of_string "CCGG") 2 2 false
  = (false, list_ascii_of_string "ACCG", "CCGG") /\
  _handle_long_ref letters (list_ascii_of_string "ACGT")
    (list_ascii_of_string "NNNNNN") 3 3 true
  = (false, list_ascii_of_string "T", "NNNNNN").
Proof. repeat split. Qed.

Lemma handle_standard_ref_rows_witness :
  len (list_ascii_of_string "CCCCACCCC") = 9 /\
  "T" = encoding_to_sequence letters
          (slice (Some 4) (Some 5) (list_ascii_of_string "CCCCTCCCC")).
Proof.
  destruct (handle_standard_ref_rows letters ["A"%char]
              (list_ascii_of_string "CCCCTCCCC")
              (list_ascii_of_string "CCCCACCCC") 5 "+" false "T" eq_refl)
    as (Hrows & _ & Htext).
  split; [exact Hrows | exact Htext].
Defined.

Lemma handle_standard_ref_cut_short_witness :
  _handle_standard_ref letters (list_ascii_of_string "AG")
    (list_ascii_of_string "CCCC") 4 "-"
  = Raise ValueError.
Proof.
  apply (handle_standard_ref_cut_short letters (list_ascii_of_string "AG")
           (list_ascii_of_string "CCCC") 4 "-").
  - vm_compute. discriminate.
  - vm_compute. discriminate.
Defined.

Lemma handle_standard_ref_again_witness :
  _handle_standard_ref letters ["A"%char] (list_ascii_of_string "CCCCACCCC")
    5 "+"
  = Ok (true, list_ascii_of_string "CCCCACCCC", "A").
Proof.
  apply (handle_standard_ref_again letters ["A"%char]
           (list_ascii_of_string "CCCCTCCCC")
           (list_ascii_of_string "CCCCACCCC") 5 "+" false "T").
  - vm_compute. discriminate.
  - vm_compute. discriminate.
  - reflexivity.
Defined.

Lemma process_alt_substitution_witness :
  str_slice None (Some 4)
    (alt_sequence letters truncate_far_end "chr1" 100 "A" "G" 96 105 "+"
       "CCCCACCCC" 5) = "CCCC" /\
  str_slice (Some 4) (Some 5)
    (alt_sequence letters truncate_far_end "chr1" 100 "A" "G" 96 105 "+"
       "CCCCACCCC" 5) = "G" /\
  str_slice (Some 5) None
    (alt_sequence letters truncate_far_end "chr1" 100 "A" "G" 96 105 "+"
       "CCCCACCCC" 5) = "CCCC".
Proof.
  exact (process_alt_substitution letters truncate_far_end "chr1" 100 "A" "G"
           96 105 "+" "CCCCACCCC" 5 eq_refl
           ltac:(vm_compute; discriminate) ltac:(vm_compute; discriminate)).
Defined.

Lemma process_alt_deletion_length_witness :
  str_len (alt_sequence letters truncate_far_end "chr1" 100 "AC" "-" 96 105
             "+" "CCCCACCCC" 5) = 105 - 96.
Proof.
  apply (process_alt_deletion_length letters truncate_far_end letters_padded
           "chr1" 100 "AC" "-" 96 105 "+" "CCCCACCCC" 5);
    vm_compute; (reflexivity || discriminate).
Defined.

Lemma read_vcf_file_without_columns_witness :
  read_vcf_file ["##a"; tsv ["chr1"; "100"; "rs1"; "A"; "G"]] None
  = read_variants None [tsv ["chr1"; "100"; "rs1"; "A"; "G"]] [] /\
  read_vcf_file ["##a"; tsv ["##b"; "7"; "x"; "A"; "G"]] None
  = read_variants None [tsv ["##b"; "7"; "x"; "A"; "G"]] [].
Proof.
  destruct (read_vcf_file_without_columns None ["##a"]
              ltac:(repeat constructor)) as [Hdata Hlast].
  split.
  - exact (Hdata (tsv ["chr1"; "100"; "rs1"; "A"; "G"]) [] eq_refl).
  - exact (Hlast (tsv ["##b"; "7"; "x"; "A"; "G"])
             (conj eq_refl eq_refl)).
Defined.

Lemma read_vcf_file_well_formed_witness :
  Forall (well_formed (Some 5))
    [("chr1", 100, "rs1", "A", "G", "+"); ("chr1", 100, "rs1", "A", "T", "+");
     ("chr1", 200, "rs2", "", "GG", "-")].
Proof.
  exact (read_vcf_file_well_formed
           ["##fileformat=VCFv4.2";
            tsv ["#CHROM"; "POS"; "ID"; "REF"; "ALT"; "STRAND"];
            tsv ["chr1"; "100"; "rs1"; "A"; "G,T"; "+"];
            tsv ["chr1"; "150"];
            tsv ["chr1"; "200"; "rs2"; "-"; "GG"; "-"];
            tsv ["chr2"; "300"; "rs3"; "C"; "*"; "?"]] (Some 5) _ eq_refl).
Defined.

Lemma read_variants_by_line_witness :
  read_variants None
    [tsv ["chr1"; "100"; "rs1"; "A"; "G,T"]; tsv ["chr1"; "150"]] []
  = Ok [("chr1", 100, "rs1", "A", "G", "."); ("chr1", 100, "rs1", "A", "T", ".")]
  /\
  read_variants None
    [tsv ["chr1"; "100"; "rs1"; "A"; "G,T"]; tsv ["chr1"; "150"];
     tsv ["chr1"; "x"; "rs1"; "A"; "G"]; tsv ["chr1"; "300"; "rs3"; "C"; "T"]]
    []
  = Raise ValueError.
Proof.
  destruct (read_variants_by_line None
              [tsv ["chr1"; "100"; "rs1"; "A"; "G,T"]; tsv ["chr1"; "150"]]
              [[("chr1", 100, "rs1", "A", "G", ".");
                ("chr1", 100, "rs1", "A", "T", ".")]; []]
              ltac:(repeat constructor)) as [Hok Herr].
  split.
  - exact (Hok []).
  - exact (Herr (tsv ["chr1"; "x"; "rs1"; "A"; "G"])
             [tsv ["chr1"; "300"; "rs3"; "C"; "T"]] ValueError [] eq_refl).
Defined.

Lemma read_variant_line_raises_witness :
  read_variant_line None (tsv ["chr1"; "1.5"; "rs1"; "A"; "G"])
  = Raise ValueError /\
  read_variant_line (Some 5) (tsv ["chr1"; "100"; "rs1"; "A"; "G"])
  = Raise IndexError.
Proof.
  split.
  - destruct (read_variant_line_raises None
                (tsv ["chr1"; "1.5"; "rs1"; "A"; "G"])
                ltac:(vm_compute; discriminate)) as [Hpos _].
    exact (Hpos "1.5" eq_refl eq_refl).
  - destruct (read_variant_line_raises (Some 5)
                (tsv ["chr1"; "100"; "rs1"; "A"; "G"])
                ltac:(vm_compute; discriminate)) as [_ Hstrand].
    apply (Hstrand "100" 100 5 eq_refl eq_refl eq_refl).
    vm_compute. intros [_ H]. discriminate H.
Defined.

End VariantEffect.
